(** * HIBE over bn256: a shallow embedding of core.go

    The development follows the Go package [hibe_sm9] (file core.go), the
    Boneh-Boyen-Goh hierarchical identity-based encryption scheme written
    on top of [golang.org/x/crypto/bn256].

    - Group elements are heap objects: the Go code holds [*bn256.G1],
      [*bn256.G2] and [*bn256.GT] pointers and the library methods
      ([ScalarMult], [Add], [Neg]) overwrite their receiver.  The store,
      the pointers and the in-place writes are modelled as they are; so
      is the [*Params] struct, whose [Pairing] field [Encrypt] and
      [Precache] assign.
    - Go functions run in a state monad whose outcome is either a normal
      return or a panic; the [(value, error)] pairs the functions return
      are kept as pairs.
    - The random source [random io.Reader] that the functions receive is
      a component of the state: the list of the answers it will give.
    - The pairing groups themselves are the external library: they enter
      through the interface [bn256.Groups], and every statement holds for
      every structure that satisfies it.

    The file has five parts: the model ([Section Hibe]), a concrete
    pairing structure to run it on ([Module ZGroups]), the rules and
    lemmas about the calls ([Section Rules], [Section Calls], which
    closes with the main theorems), further properties of the calls
    ([Section Untouched], [Section More]), and the runs on the concrete
    structure. *)

From Stdlib Require Import ZArith Lia.
From stdpp Require Import base tactics option list strings.

Local Open Scope Z_scope.

(** ** The pairing library, as an interface *)

Module bn256.

(** The three groups of [golang.org/x/crypto/bn256], written additively
    as in the library's API ([Add], [Neg], [ScalarMult]), and the
    bilinear map [Pair].  A scalar ([*big.Int]) is an integer and
    [ScalarMult] is the action of the integers on the group.  The laws
    are those of the library's contract, and only those the proofs use:
    G1 and G2 need no neutral element here, GT needs its inverse. *)
Class Groups := {
  G1 : Type;
  G2 : Type;
  GT : Type;
  (** [bn256.Order], the bound handed to [rand.Int]. *)
  Order : Z;
  (** [new(G1).ScalarBaseMult(k)] is [g1_mul g1_base k]. *)
  g1_base : G1;
  g1_add : G1 → G1 → G1;
  g1_mul : G1 → Z → G1;
  g2_base : G2;
  g2_add : G2 → G2 → G2;
  g2_mul : G2 → Z → G2;
  gt_zero : GT;
  gt_add : GT → GT → GT;
  gt_neg : GT → GT;
  gt_mul : GT → Z → GT;
  pair : G1 → G2 → GT;
  g1_add_assoc : ∀ a b c, g1_add a (g1_add b c) = g1_add (g1_add a b) c;
  g1_mul_add_r : ∀ a b k, g1_mul (g1_add a b) k = g1_add (g1_mul a k) (g1_mul b k);
  g1_mul_add_l : ∀ a k j, g1_mul a (k + j) = g1_add (g1_mul a k) (g1_mul a j);
  g1_mul_mul : ∀ a k j, g1_mul (g1_mul a k) j = g1_mul a (k * j);
  g2_mul_add_l : ∀ a k j, g2_mul a (k + j) = g2_add (g2_mul a k) (g2_mul a j);
  gt_add_assoc : ∀ a b c, gt_add a (gt_add b c) = gt_add (gt_add a b) c;
  gt_add_comm : ∀ a b, gt_add a b = gt_add b a;
  gt_add_zero : ∀ a, gt_add gt_zero a = a;
  gt_add_neg : ∀ a, gt_add a (gt_neg a) = gt_zero;
  gt_mul_mul : ∀ a k j, gt_mul (gt_mul a k) j = gt_mul a (k * j);
  pair_add_l : ∀ a b c, pair (g1_add a b) c = gt_add (pair a c) (pair b c);
  pair_mul_l : ∀ a c k, pair (g1_mul a k) c = gt_mul (pair a c) k;
  pair_mul_r : ∀ a c k, pair a (g2_mul c k) = gt_mul (pair a c) k;
}.

End bn256.

(** ** Data model of core.go *)

(** A Go pointer: [None] is [nil], [Some a] is the address [a]. *)
Definition ptr := option nat.

(** A Go [error] value, by its text. *)
Definition error := string.

(** [type Params struct { G, G1 *bn256.G2; G2, G3 *bn256.G1;
    H []*bn256.G1; Pairing *bn256.GT }] *)
Module Params.
Record t := mk {
  G : ptr;
  G1 : ptr;
  G2 : ptr;
  G3 : ptr;
  H : list ptr;
  Pairing : ptr
}.
(** [Params{}], the zero value. *)
Definition zero : t := mk None None None None [] None.
Definition set_G (v : ptr) (p : t) : t := mk v (G1 p) (G2 p) (G3 p) (H p) (Pairing p).
Definition set_G1 (v : ptr) (p : t) : t := mk (G p) v (G2 p) (G3 p) (H p) (Pairing p).
Definition set_G2 (v : ptr) (p : t) : t := mk (G p) (G1 p) v (G3 p) (H p) (Pairing p).
Definition set_G3 (v : ptr) (p : t) : t := mk (G p) (G1 p) (G2 p) v (H p) (Pairing p).
Definition set_H (v : list ptr) (p : t) : t := mk (G p) (G1 p) (G2 p) (G3 p) v (Pairing p).
Definition set_Pairing (v : ptr) (p : t) : t := mk (G p) (G1 p) (G2 p) (G3 p) (H p) v.
End Params.

(** [type MasterKey *bn256.G1] *)
Definition MasterKey := ptr.

(** [type PrivateKey struct { A0 *bn256.G1; A1 *bn256.G2; B []*bn256.G1 }] *)
Module PrivateKey.
Record t := mk {
  A0 : ptr;
  A1 : ptr;
  B : list ptr
}.
End PrivateKey.

(** [type Ciphertext struct { A *bn256.GT; B *bn256.G2; C *bn256.G1 }] *)
Module Ciphertext.
Record t := mk {
  A : ptr;
  B : ptr;
  C : ptr
}.
End Ciphertext.

(** [len] of a slice, a Go [int]. *)
Definition len {A} (s : list A) : Z := Z.of_nat (length s).

(** [DepthLeft], a method of [*PrivateKey] returning [int] *)
Definition DepthLeft (privkey : PrivateKey.t) : Z := len (PrivateKey.B privkey).

(** One answer of the random source [random io.Reader] to a [rand.Int]:
    a scalar, or the error of the failed read. *)
Inductive draw :=
  | Scalar (z : Z)
  | Fail (e : error).

(** What a Go call that returns [(value, error)] hands back when only one
    of the two is meaningful. *)
Inductive result (A : Type) :=
  | Ok (a : A)
  | Error (e : error).
Arguments Ok {A} a.
Arguments Error {A} e.

(** Panic texts: the three of core.go, and one per kind of runtime error
    (the Go runtime adds the index and the length to the text of an
    index error). *)
Definition panic_depth_master : string :=
  "Cannot generate key at greater than maximum depth.".
Definition panic_depth_parent : string :=
  "Cannot generate key at greater than maximum depth".
Definition panic_parent_mismatch : string :=
  "Trying to generate key at depth that is not the child of the provided parent".
Definition panic_index : string := "runtime error: index out of range".
Definition panic_nil : string :=
  "runtime error: invalid memory address or nil pointer dereference".
Definition panic_makeslice : string := "runtime error: makeslice: len out of range".
(** [io.EOF]: the source has nothing left. *)
Definition io_EOF : error := "EOF".

Section Hibe.
Context `{!bn256.Groups}.

(** *** The store *)

(** A heap cell holds one group element; [Unset] is a [new(bn256.G1)]
    (or [G2], [GT]) that no method has written yet.  One heap serves the
    three groups: the tag of a cell is the Go type of the pointers to
    it. *)
Inductive cell :=
  | Unset
  | InG1 (v : bn256.G1)
  | InG2 (v : bn256.G2)
  | InGT (v : bn256.GT).

Record State := mkState {
  heap : list cell;            (* the group elements, by address *)
  pstore : list Params.t;      (* the Params structs, by address *)
  rand : list draw             (* what [random] will answer, in order *)
}.

Definition set_heap (h : list cell) (σ : State) : State :=
  mkState h (pstore σ) (rand σ).
Definition set_pstore (ps : list Params.t) (σ : State) : State :=
  mkState (heap σ) ps (rand σ).
Definition set_rand (r : list draw) (σ : State) : State :=
  mkState (heap σ) (pstore σ) r.

(** *** The monad of Go calls: state, and panics *)

Inductive outcome (A : Type) :=
  | Done (a : A) (σ : State)
  | Panics (msg : string) (σ : State).
Arguments Done {A} a σ.
Arguments Panics {A} msg σ.

Definition M (A : Type) : Type := State → outcome A.

#[global] Instance M_ret : MRet M := λ A a σ, Done a σ.
#[global] Instance M_bind : MBind M := λ A B f m σ,
  match m σ with
  | Done a σ' => f a σ'
  | Panics msg σ' => Panics msg σ'
  end.

Definition panic {A} (msg : string) : M A := λ σ, Panics msg σ.

(** [s[i]] with Go's bounds check. *)
Definition index {A} (s : list A) (i : Z) : M A :=
  if decide (0 ≤ i) then
    match s !! Z.to_nat i with
    | Some x => mret x
    | None => panic panic_index
    end
  else panic panic_index.

(** [s[i] = x] with Go's bounds check. *)
Definition index_set {A} (s : list A) (i : Z) (x : A) : M (list A) :=
  if decide (0 ≤ i ∧ i < len s) then mret (<[Z.to_nat i := x]> s)
  else panic panic_index.

(** [make([]*bn256.G1, n)]: [n] nil pointers. *)
Definition make (n : Z) : M (list ptr) :=
  if decide (0 ≤ n) then mret (replicate (Z.to_nat n) None)
  else panic panic_makeslice.

(** [for i := from; i != from + n; i++ { a = body i a }] *)
Fixpoint for_loop {A} (n : nat) (i : Z) (body : Z → A → M A) (a : A) : M A :=
  match n with
  | O => mret a
  | S n' => a' ← body i a; for_loop n' (i + 1) body a'
  end.

(** *** Reads and writes of the store *)

(** Dereferencing: nil, or an address the heap does not have, is Go's
    nil pointer dereference. *)
Definition load_cell (p : ptr) : M cell := λ σ,
  match p with
  | Some a =>
      match heap σ !! a with
      | Some c => Done c σ
      | None => Panics panic_nil σ
      end
  | None => Panics panic_nil σ
  end.

Definition store_cell (p : ptr) (c : cell) : M unit := λ σ,
  match p with
  | Some a =>
      if decide (a < length (heap σ))%nat
      then Done () (set_heap (<[a := c]> (heap σ)) σ)
      else Panics panic_nil σ
  | None => Panics panic_nil σ
  end.

(** [new(bn256.G1)], [new(bn256.G2)], [new(bn256.GT)]. *)
Definition new_cell : M ptr := λ σ,
  Done (Some (length (heap σ))) (set_heap (heap σ ++ [Unset]) σ).

(** An operand of a library method: an unset or nil element makes the
    library dereference nil. *)
Definition load_G1 (p : ptr) : M bn256.G1 :=
  c ← load_cell p;
  match c with InG1 v => mret v | _ => panic panic_nil end.
Definition load_G2 (p : ptr) : M bn256.G2 :=
  c ← load_cell p;
  match c with InG2 v => mret v | _ => panic panic_nil end.
Definition load_GT (p : ptr) : M bn256.GT :=
  c ← load_cell p;
  match c with InGT v => mret v | _ => panic panic_nil end.

Definition load_Params (p : ptr) : M Params.t := λ σ,
  match p with
  | Some a =>
      match pstore σ !! a with
      | Some P => Done P σ
      | None => Panics panic_nil σ
      end
  | None => Panics panic_nil σ
  end.

(** [params.f = v] *)
Definition update_Params (p : ptr) (f : Params.t → Params.t) : M unit := λ σ,
  match p with
  | Some a =>
      match pstore σ !! a with
      | Some P => Done () (set_pstore (<[a := f P]> (pstore σ)) σ)
      | None => Panics panic_nil σ
      end
  | None => Panics panic_nil σ
  end.

(** [&Params{}] *)
Definition new_Params : M ptr := λ σ,
  Done (Some (length (pstore σ))) (set_pstore (pstore σ ++ [Params.zero]) σ).

(** [params.f] *)
Definition field {A} (p : ptr) (f : Params.t → A) : M A :=
  P ← load_Params p; mret (f P).

(** *** The library calls *)

(** [rand.Int(random, max)]: the next answer of the source, a scalar in
    [0, max) or the read error; an exhausted source answers [io.EOF]. *)
Definition rand_Int (max : Z) : M (result Z) := λ σ,
  match rand σ with
  | Scalar z :: r => Done (Ok (z mod max)) (set_rand r σ)
  | Fail e :: r => Done (Error e) (set_rand r σ)
  | [] => Done (Error io_EOF) σ
  end.

(** [e.ScalarMult(a, k)] on [*bn256.G1]: [e = a * k], returns [e]. *)
Definition G1_ScalarMult (e a : ptr) (k : Z) : M ptr :=
  va ← load_G1 a;
  store_cell e (InG1 (bn256.g1_mul va k));;
  mret e.

(** [e.Add(a, b)] on [*bn256.G1]. *)
Definition G1_Add (e a b : ptr) : M ptr :=
  va ← load_G1 a;
  vb ← load_G1 b;
  store_cell e (InG1 (bn256.g1_add va vb));;
  mret e.

Definition G2_ScalarMult (e a : ptr) (k : Z) : M ptr :=
  va ← load_G2 a;
  store_cell e (InG2 (bn256.g2_mul va k));;
  mret e.

Definition G2_Add (e a b : ptr) : M ptr :=
  va ← load_G2 a;
  vb ← load_G2 b;
  store_cell e (InG2 (bn256.g2_add va vb));;
  mret e.

Definition GT_ScalarMult (e a : ptr) (k : Z) : M ptr :=
  va ← load_GT a;
  store_cell e (InGT (bn256.gt_mul va k));;
  mret e.

Definition GT_Add (e a b : ptr) : M ptr :=
  va ← load_GT a;
  vb ← load_GT b;
  store_cell e (InGT (bn256.gt_add va vb));;
  mret e.

Definition GT_Neg (e a : ptr) : M ptr :=
  va ← load_GT a;
  store_cell e (InGT (bn256.gt_neg va));;
  mret e.

(** [bn256.Pair(g1, g2)]: a new [*bn256.GT]. *)
Definition Pair (g1 g2 : ptr) : M ptr :=
  v1 ← load_G1 g1;
  v2 ← load_G2 g2;
  e ← new_cell;
  store_cell e (InGT (bn256.pair v1 v2));;
  mret e.

(** [bn256.RandomG1(r)]: the scalar [k] the library draws from the
    source and the new element [new(G1).ScalarBaseMult(k)]; likewise
    [bn256.RandomG2(r)]. *)
Definition RandomG1 : M (result (Z * ptr)) :=
  rk ← rand_Int bn256.Order;
  match rk with
  | Error e => mret (Error e)
  | Ok k =>
      e ← new_cell;
      store_cell e (InG1 (bn256.g1_mul bn256.g1_base k));;
      mret (Ok (k, e))
  end.

Definition RandomG2 : M (result (Z * ptr)) :=
  rk ← rand_Int bn256.Order;
  match rk with
  | Error e => mret (Error e)
  | Ok k =>
      e ← new_cell;
      store_cell e (InG2 (bn256.g2_mul bn256.g2_base k));;
      mret (Ok (k, e))
  end.

(** Modelled from the spec: [deepClone], whose file (util.go) is not
    among the sources; util_test.go only compares the bytes of a clone
    with those of its argument.  The spec's Element Utility is the "safe,
    aliasing-free duplication of group elements before in-place
    accumulation": a new element with the value of its argument. *)
Definition deepClone (g : ptr) : M ptr :=
  v ← load_G1 g;
  e ← new_cell;
  store_cell e (InG1 v);;
  mret e.

(** *** core.go *)

(** [MaximumDepth], a method of [*Params] returning [int] *)
Definition MaximumDepth (params : ptr) : M Z :=
  Hs ← field params Params.H;
  mret (len Hs).

(** The loop of [Setup] over [params.H]:
    [for i := range params.H {
       _, params.H[i], err = bn256.RandomG1(random)
       if err != nil { return nil, nil, err } }];
    the result is the error that left the loop, if any. *)
Fixpoint Setup_fill_H (n : nat) (i : Z) (params : ptr) : M (option error) :=
  match n with
  | O => mret None
  | S n' =>
      r ← RandomG1;
      Hs ← field params Params.H;
      match r with
      | Error e =>
          Hs' ← index_set Hs i None;
          update_Params params (Params.set_H Hs');;
          mret (Some e)
      | Ok (_, h) =>
          Hs' ← index_set Hs i h;
          update_Params params (Params.set_H Hs');;
          Setup_fill_H n' (i + 1) params
      end
  end.

(** [func Setup(random io.Reader, l int)], returning
    [*Params, MasterKey, error];
    [random] is the source held in the state. *)
Definition Setup (l : Z) : M (ptr * MasterKey * option error) :=
  params ← new_Params;
  r ← RandomG2;
  match r with
  | Error e =>
      update_Params params (Params.set_G None);;
      mret (None, None, Some e)
  | Ok (_, g) =>
  update_Params params (Params.set_G g);;
  ra ← rand_Int bn256.Order;
  match ra with
  | Error e => mret (None, None, Some e)
  | Ok alpha =>
  g ← field params Params.G;
  e ← new_cell;
  g1 ← G2_ScalarMult e g alpha;
  update_Params params (Params.set_G1 g1);;
  r ← RandomG1;
  match r with
  | Error e =>
      update_Params params (Params.set_G2 None);;
      mret (None, None, Some e)
  | Ok (_, g2) =>
  update_Params params (Params.set_G2 g2);;
  r ← RandomG1;
  match r with
  | Error e =>
      update_Params params (Params.set_G3 None);;
      mret (None, None, Some e)
  | Ok (_, g3) =>
  update_Params params (Params.set_G3 g3);;
  Hs ← make l;
  update_Params params (Params.set_H Hs);;
  Hs ← field params Params.H;
  err ← Setup_fill_H (length Hs) 0 params;
  match err with
  | Some e => mret (None, None, Some e)
  | None =>
  g2 ← field params Params.G2;
  e ← new_cell;
  master ← G1_ScalarMult e g2 alpha;
  mret (params, master, None)
  end end end end end.

(** The accumulation that [KeyGenFromMaster], [KeyGenFromParent] and
    [Encrypt] each spell out, on the accumulator [acc]:
    [for i := 0; i != k; i++ {
       h := new(bn256.G1).ScalarMult(params.H[i], id[i])
       acc.Add(acc, h) }] with [k = len(id)]. *)
Definition accumulate_body (params : ptr) (id : list Z) (acc : ptr)
    (i : Z) (_ : unit) : M unit :=
  e ← new_cell;
  Hs ← field params Params.H;
  hi ← index Hs i;
  idi ← index id i;
  h ← G1_ScalarMult e hi idi;
  G1_Add acc acc h;;
  mret ().

Definition accumulate (params : ptr) (id : list Z) (acc : ptr) : M unit :=
  for_loop (Z.to_nat (len id)) 0 (accumulate_body params id acc) ().

(** [func KeyGenFromMaster(random io.Reader, params *Params,
    master MasterKey, id []*big.Int)], returning [*PrivateKey, error] *)
Definition KeyGenFromMaster (params : ptr) (master : MasterKey) (id : list Z)
    : M (option PrivateKey.t * option error) :=
  let k := len id in
  Hs ← field params Params.H;
  let l := len Hs in
  if decide (l < k) then panic panic_depth_master else
  rr ← rand_Int bn256.Order;
  match rr with
  | Error e => mret (None, Some e)
  | Ok r =>
  g3 ← field params Params.G3;
  product ← deepClone g3;
  accumulate params id product;;
  G1_ScalarMult product product r;;
  e ← new_cell;
  A0 ← G1_Add e master product;
  e ← new_cell;
  g ← field params Params.G;
  A1 ← G2_ScalarMult e g r;
  B ← make (l - k);
  B ← for_loop (Z.to_nat (l - k)) 0 (λ j B,
         e ← new_cell;
         Hs ← field params Params.H;
         h ← index Hs (k + j);
         b ← G1_ScalarMult e h r;
         index_set B j b) B;
  mret (Some (PrivateKey.mk A0 A1 B), None)
  end.

(** [func KeyGenFromParent(random io.Reader, params *Params,
    parent *PrivateKey, id []*big.Int)], returning [*PrivateKey, error] *)
Definition KeyGenFromParent (params : ptr) (parent : PrivateKey.t) (id : list Z)
    : M (option PrivateKey.t * option error) :=
  let k := len id in
  Hs ← field params Params.H;
  let l := len Hs in
  if decide (l < k) then panic panic_depth_parent else
  if decide (DepthLeft parent ≠ l - k + 1) then panic panic_parent_mismatch else
  rt ← rand_Int bn256.Order;
  match rt with
  | Error e => mret (None, Some e)
  | Ok t =>
  g3 ← field params Params.G3;
  product ← deepClone g3;
  accumulate params id product;;
  G1_ScalarMult product product t;;
  e ← new_cell;
  b0 ← index (PrivateKey.B parent) 0;
  idk ← index id (k - 1);
  bpower ← G1_ScalarMult e b0 idk;
  e ← new_cell;
  A0 ← G1_Add e (PrivateKey.A0 parent) bpower;
  G1_Add A0 A0 product;;
  e ← new_cell;
  g ← field params Params.G;
  A1 ← G2_ScalarMult e g t;
  G2_Add A1 (PrivateKey.A1 parent) A1;;
  B ← make (l - k);
  B ← for_loop (Z.to_nat (l - k)) 0 (λ j B,
         e ← new_cell;
         Hs ← field params Params.H;
         h ← index Hs (k + j);
         b ← G1_ScalarMult e h t;
         B ← index_set B j b;
         bj ← index B j;
         pb ← index (PrivateKey.B parent) (j + 1);
         G1_Add bj pb bj;;
         mret B) B;
  mret (Some (PrivateKey.mk A0 A1 B), None)
  end.

(** [Precache], a method of [*Params] *)
Definition Precache (params : ptr) : M unit :=
  pairing ← field params Params.Pairing;
  match pairing with
  | None =>
      g2 ← field params Params.G2;
      g1 ← field params Params.G1;
      p ← Pair g2 g1;
      update_Params params (Params.set_Pairing p)
  | Some _ => mret ()
  end.

(** [func Encrypt(random io.Reader, params *Params, id []*big.Int,
    message *bn256.GT)], returning [*Ciphertext, error] *)
Definition Encrypt (params : ptr) (id : list Z) (message : ptr)
    : M (option Ciphertext.t * option error) :=
  rs ← rand_Int bn256.Order;
  match rs with
  | Error e => mret (None, Some e)
  | Ok s =>
  pairing ← field params Params.Pairing;
  match pairing with
  | None =>
      g2 ← field params Params.G2;
      g1 ← field params Params.G1;
      p ← Pair g2 g1;
      update_Params params (Params.set_Pairing p)
  | Some _ => mret ()
  end;;
  A ← new_cell;
  pairing ← field params Params.Pairing;
  GT_ScalarMult A pairing s;;
  GT_Add A A message;;
  e ← new_cell;
  g ← field params Params.G;
  B ← G2_ScalarMult e g s;
  g3 ← field params Params.G3;
  C ← deepClone g3;
  accumulate params id C;;
  G1_ScalarMult C C s;;
  mret (Some (Ciphertext.mk A B C), None)
  end.

(** [func Decrypt(key *PrivateKey, ciphertext *Ciphertext) *bn256.GT] *)
Definition Decrypt (key : PrivateKey.t) (ciphertext : Ciphertext.t) : M ptr :=
  plaintext ← Pair (Ciphertext.C ciphertext) (PrivateKey.A1 key);
  e ← new_cell;
  d ← Pair (PrivateKey.A0 key) (Ciphertext.B ciphertext);
  invdenominator ← GT_Neg e d;
  GT_Add plaintext plaintext invdenominator;;
  GT_Add plaintext (Ciphertext.A ciphertext) plaintext;;
  mret plaintext.

(** *** Vocabulary of the statements *)

(** [holds h p c]: the pointer [p] is an address of the heap [h] whose
    cell is [c]. *)
Definition holds (h : list cell) (p : ptr) (c : cell) : Prop :=
  ∃ a, p = Some a ∧ h !! a = Some c.

(** The values behind the pointers of a [Params]: [g], [g1] in G2,
    [g2], [g3] and [h_1 .. h_l] in G1. *)
Record values := mkValues {
  vG : bn256.G2;
  vG1 : bn256.G2;
  vG2 : bn256.G1;
  vG3 : bn256.G1;
  vH : list bn256.G1
}.

(** One iteration of the accumulation loops on the accumulated value:
    [acc + h * x] for [h = H[i]] and [x = id[i]]. *)
Definition acc_step (acc : bn256.G1) (hx : bn256.G1 * Z) : bn256.G1 :=
  bn256.g1_add acc (bn256.g1_mul hx.1 hx.2).

(** The element [g3 + Σ_i h_i * id_i] that the accumulation loops build
    (written [g3 · ∏ h_i^{id_i}] in the multiplicative notation of the
    scheme): the left fold is the loop, one step per iteration. *)
Definition id_point (V : values) (id : list Z) : bn256.G1 :=
  fold_left acc_step (zip (vH V) id) (vG3 V).

(** [params_at σ params P V]: in [σ], [params] points to the struct [P],
    whose pointers hold the values [V]; the cache is absent or holds
    [e(g2, g1)]. *)
Definition params_at (σ : State) (params : ptr) (P : Params.t) (V : values) : Prop :=
  (∃ a, params = Some a ∧ pstore σ !! a = Some P) ∧
  holds (heap σ) (Params.G P) (InG2 (vG V)) ∧
  holds (heap σ) (Params.G1 P) (InG2 (vG1 V)) ∧
  holds (heap σ) (Params.G2 P) (InG1 (vG2 V)) ∧
  holds (heap σ) (Params.G3 P) (InG1 (vG3 V)) ∧
  Forall2 (λ p v, holds (heap σ) p (InG1 v)) (Params.H P) (vH V) ∧
  (Params.Pairing P = None ∨
   holds (heap σ) (Params.Pairing P) (InGT (bn256.pair (vG2 V) (vG1 V)))).

(** [key_at h V m id R key]: in the heap [h] the key holds the values of a
    key for the path [id] under the master secret [m] with accumulated
    randomizer [R]: [A0 = m + P_id * R], [A1 = g * R],
    [B_j = h_(k+j) * R]. *)
Definition key_at (h : list cell) (V : values) (m : bn256.G1) (id : list Z)
    (R : Z) (key : PrivateKey.t) : Prop :=
  holds h (PrivateKey.A0 key) (InG1 (bn256.g1_add m (bn256.g1_mul (id_point V id) R))) ∧
  holds h (PrivateKey.A1 key) (InG2 (bn256.g2_mul (vG V) R)) ∧
  Forall2 (λ p v, holds h p (InG1 (bn256.g1_mul v R)))
          (PrivateKey.B key) (drop (length id) (vH V)).

(** [ct_at h V id s m ct]: in the heap [h] the ciphertext holds an
    encryption of [m] for the path [id] with the scalar [s]:
    [A = e(g2, g1) * s + m], [B = g * s], [C = P_id * s]. *)
Definition ct_at (h : list cell) (V : values) (id : list Z) (s : Z)
    (m : bn256.GT) (ct : Ciphertext.t) : Prop :=
  holds h (Ciphertext.A ct)
        (InGT (bn256.gt_add (bn256.gt_mul (bn256.pair (vG2 V) (vG1 V)) s) m)) ∧
  holds h (Ciphertext.B ct) (InG2 (bn256.g2_mul (vG V) s)) ∧
  holds h (Ciphertext.C ct) (InG1 (bn256.g1_mul (id_point V id) s)).


(** Delegation down a path: from the key of [path], one
    [KeyGenFromParent] per remaining segment, each for the path extended
    by that segment; it stops at the first call that returns no key. *)
Fixpoint KeyGenChain (params : ptr) (key : PrivateKey.t) (path rest : list Z)
    : M (option PrivateKey.t * option error) :=
  match rest with
  | [] => mret (Some key, None)
  | x :: rest' =>
      '(child, err) ← KeyGenFromParent params key (path ++ [x]);
      match child with
      | Some child => KeyGenChain params child (path ++ [x]) rest'
      | None => mret (None, err)
      end
  end.

(** The key of [id] by delegation: [KeyGenFromMaster] for the empty path
    (the root), then [KeyGenFromParent] down the path, root to depth 1 to
    depth 2 and so on. *)
Definition KeyGenDelegated (params : ptr) (master : MasterKey) (id : list Z)
    : M (option PrivateKey.t * option error) :=
  '(root, err) ← KeyGenFromMaster params master [];
  match root with
  | Some root => KeyGenChain params root [] id
  | None => mret (None, err)
  end.

(** The concrete scenario of the specification: [l = 2]; [keyA] for the
    path [(3)] from the master key; [keyB] for [(3, 7)] from [keyA]; a
    ciphertext for [(3, 7)] of the message at [message]; the result is
    [DepthLeft()] of [keyB] and what [keyB] and [keyA] decrypt. *)
Definition concrete_scenario (message : ptr) : M (Z * bn256.GT * bn256.GT) :=
  '(params, master, _) ← Setup 2;
  '(keyA, _) ← KeyGenFromMaster params master [3];
  match keyA with
  | None => panic panic_nil
  | Some keyA =>
  '(keyB, _) ← KeyGenFromParent params keyA [3; 7];
  match keyB with
  | None => panic panic_nil
  | Some keyB =>
  '(ct, _) ← Encrypt params [3; 7] message;
  match ct with
  | None => panic panic_nil
  | Some ct =>
  pB ← Decrypt keyB ct;
  pA ← Decrypt keyA ct;
  vB ← load_GT pB;
  vA ← load_GT pA;
  mret (DepthLeft keyB, vB, vA)
  end end end.

(** [fresh σ0 p]: the pointer [p] is no address of the heap of [σ0]: it
    is nil, or an element created after [σ0]. *)
Definition fresh (σ0 : State) (p : ptr) : Prop :=
  ∀ a, p = Some a → (length (heap σ0) ≤ a)%nat.

(** [params_frame P0 P]: the struct [P] is [P0] up to the cache slot,
    which may have gone from absent to present and nothing else. *)
Definition params_frame (P0 P : Params.t) : Prop :=
  Params.G P = Params.G P0 ∧
  Params.G1 P = Params.G1 P0 ∧
  Params.G2 P = Params.G2 P0 ∧
  Params.G3 P = Params.G3 P0 ∧
  Params.H P = Params.H P0 ∧
  (Params.Pairing P0 ≠ None → Params.Pairing P = Params.Pairing P0).

(** [frame σ0 σ]: everything that exists in [σ0] is in [σ] as it was:
    every group element of [σ0] at its address with its value, every
    [Params] of [σ0] with its fields, except for a cache slot that was
    absent. *)
Definition frame (σ0 σ : State) : Prop :=
  heap σ0 `prefix_of` heap σ ∧
  (length (pstore σ0) ≤ length (pstore σ))%nat ∧
  ∀ a P0, pstore σ0 !! a = Some P0 →
    ∃ P, pstore σ !! a = Some P ∧ params_frame P0 P.


(** The call hands an error value back to its caller, and no result. *)
Definition returns_error {A} (o : outcome (option A * option error)) : Prop :=
  ∃ e σ', o = Done (None, Some e) σ'.


(** The cache slot of [params] points to the element at address [c],
    whose value is [v]. *)
Definition cache_set (σ : State) (params : ptr) (c : nat) (v : bn256.GT) : Prop :=
  ∃ a P, params = Some a ∧ pstore σ !! a = Some P ∧
    Params.Pairing P = Some c ∧ heap σ !! c = Some (InGT v).

(** [unchanged σ σ']: every pointer that holds a value in [σ] holds the
    same value in [σ'], and every [Params] of [σ] is in [σ'] with the
    same [G], [G1], [G2], [G3] and [H]. *)
Definition unchanged (σ σ' : State) : Prop :=
  (∀ p c, holds (heap σ) p c → holds (heap σ') p c) ∧
  (∀ a P, pstore σ !! a = Some P →
     ∃ P', pstore σ' !! a = Some P' ∧
       Params.G P' = Params.G P ∧ Params.G1 P' = Params.G1 P ∧
       Params.G2 P' = Params.G2 P ∧ Params.G3 P' = Params.G3 P ∧
       Params.H P' = Params.H P).

(** The clause for a panic in the statements about every call: the
    state the panic leaves respects [frame]. *)
Definition keeps (σ0 : State) : string → State → Prop := λ _ σ', frame σ0 σ'.

(** The state a call leaves, whether it returned or panicked. *)
Definition final {A} (o : outcome A) : State :=
  match o with Done _ σ => σ | Panics _ σ => σ end.

(** [wpx m σ Q E]: the call [m] from [σ] either returns a value and a
    state that satisfy [Q], or panics with a text and a state that
    satisfy [E]. *)
Definition wpx {A} (m : M A) (σ : State)
    (Q : A → State → Prop) (E : string → State → Prop) : Prop :=
  match m σ with
  | Done a σ' => Q a σ'
  | Panics msg σ' => E msg σ'
  end.

(** [wp m σ Q]: the call [m] from [σ] returns, with a value and a state
    that satisfy [Q]; it does not panic. *)
Definition wp {A} (m : M A) (σ : State) (Q : A → State → Prop) : Prop :=
  wpx m σ Q (λ _ _, False).

(** [untouched f m]: the call [m] leaves the component [f] of the state
    as it found it, whether it returns or panics. *)
Definition untouched {A X} (f : State → X) (m : M A) : Prop :=
  ∀ σ, f (final (m σ)) = f σ.


(** [new_key σ key]: no pointer of [key] is the address of an element
    of [σ]: [A0], [A1] and every [B[j]] were created after [σ]. *)
Definition new_key (σ : State) (key : PrivateKey.t) : Prop :=
  fresh σ (PrivateKey.A0 key) ∧ fresh σ (PrivateKey.A1 key) ∧
  ∀ b, b ∈ PrivateKey.B key → fresh σ b.

(** [new_ciphertext σ ct]: likewise for [A], [B] and [C] of [ct]. *)
Definition new_ciphertext (σ : State) (ct : Ciphertext.t) : Prop :=
  fresh σ (Ciphertext.A ct) ∧ fresh σ (Ciphertext.B ct) ∧ fresh σ (Ciphertext.C ct).

(** The clause for a panic in the statements about nil operands: the
    panic is Go's nil pointer dereference. *)
Definition nil_dereference : string → State → Prop := λ msg _, msg = panic_nil.

End Hibe.

Arguments Done {_ A} a σ.
Arguments Panics {_ A} msg σ.

(** ** A concrete pairing structure

    The integers, with multiplication as the bilinear map: every element
    is written as its exponent over a fixed generator, so that
    [ScalarMult] multiplies exponents and [Pair] multiplies the exponents
    of its two arguments.  The scenarios below run the embedding on it. *)

Module ZGroups.

Definition bn256_Order : Z :=
  65000549695646603732796438742359905742570406053903786389881062969044166799969.

#[export] Program Instance groups : bn256.Groups := {|
  bn256.G1 := Z;
  bn256.G2 := Z;
  bn256.GT := Z;
  bn256.Order := bn256_Order;
  bn256.g1_base := 1;
  bn256.g1_add := Z.add;
  bn256.g1_mul := Z.mul;
  bn256.g2_base := 1;
  bn256.g2_add := Z.add;
  bn256.g2_mul := Z.mul;
  bn256.gt_zero := 0;
  bn256.gt_add := Z.add;
  bn256.gt_neg := Z.opp;
  bn256.gt_mul := Z.mul;
  bn256.pair := Z.mul
|}.
Solve All Obligations with (intros; lia).

(** A state as [Setup] leaves it for [l = 2]: [g = 2], [alpha = 3],
    [g1 = 6], [g2 = 5], [g3 = 7], [h = (11, 13)], the master secret
    [15] at address 6, and a message [1000] at address 7. *)
Definition sample_heap : list cell :=
  [InG2 2; InG2 6; InG1 5; InG1 7; InG1 11; InG1 13; InG1 15; InGT 1000].
Definition sample_params : Params.t :=
  Params.mk (Some 0%nat) (Some 1%nat) (Some 2%nat) (Some 3%nat)
            [Some 4%nat; Some 5%nat] None.
Definition sample_values : values := mkValues 2 6 5 7 [11; 13].
Definition sample_state (r : list draw) : State :=
  mkState sample_heap [sample_params] r.
(** A state with nothing but a message [1000], at address 0. *)
Definition message_state (r : list draw) : State :=
  mkState [InGT 1000] [] r.
(** The root key (empty path) with randomizer [2] in a heap that has it:
    [A0 = 15 + 7 * 2] at address 8, [A1 = 2 * 2] at 9,
    [B = (11 * 2, 13 * 2)] at 10 and 11. *)
Definition sample_root_key : PrivateKey.t :=
  PrivateKey.mk (Some 8%nat) (Some 9%nat) [Some 10%nat; Some 11%nat].
Definition sample_state_root (r : list draw) : State :=
  mkState (sample_heap ++ [InG1 29; InG2 4; InG1 22; InG1 26]) [sample_params] r.

End ZGroups.

(** ** A concrete pairing structure of prime order

    The group of order 2, three times, with the conjunction as the
    bilinear map: [ScalarMult] by [k] keeps an element when [k] is odd. *)

Module Z2Groups.

#[export] Program Instance groups : bn256.Groups := {|
  bn256.G1 := bool;
  bn256.G2 := bool;
  bn256.GT := bool;
  bn256.Order := 2;
  bn256.g1_base := true;
  bn256.g1_add := xorb;
  bn256.g1_mul := λ a k, a && Z.odd k;
  bn256.g2_base := true;
  bn256.g2_add := xorb;
  bn256.g2_mul := λ a k, a && Z.odd k;
  bn256.gt_zero := false;
  bn256.gt_add := xorb;
  bn256.gt_neg := λ a, a;
  bn256.gt_mul := λ a k, a && Z.odd k;
  bn256.pair := andb
|}.
Solve All Obligations with
  (intros; cbn; rewrite ?Z.odd_add, ?Z.odd_mul;
   repeat match goal with |- context [Z.odd ?k] => destruct (Z.odd k) end;
   repeat match goal with b : bool |- _ => destruct b end;
   reflexivity).

(** A state with nothing but the message [true], at address 0. *)
Definition message_state (r : list draw) : State :=
  mkState [InGT true] [] r.

End Z2Groups.

(** ** Rules for running the calls *)

Section Rules.
Context `{!bn256.Groups}.
Implicit Types (σ : State) (h : list cell) (p : ptr).

(** *** The logic of [wpx] *)

Lemma wpx_ret {A} (a : A) σ Q E : Q a σ → wpx (mret a) σ Q E.
Proof. done. Qed.

Lemma wpx_panic {A} msg σ (Q : A → State → Prop) E : E msg σ → wpx (panic msg) σ Q E.
Proof. done. Qed.

Lemma wpx_bind {A B} (m : M A) (f : A → M B) σ Q E :
  wpx m σ (λ a σ', wpx (f a) σ' Q E) E → wpx (m ≫= f) σ Q E.
Proof.
  unfold wpx, mbind, M_bind. by destruct (m σ).
Qed.

Lemma wpx_mono {A} (m : M A) σ (Q Q' : A → State → Prop) (E E' : string → State → Prop) :
  wpx m σ Q E →
  (∀ a σ', Q a σ' → Q' a σ') →
  (∀ msg σ', E msg σ' → E' msg σ') →
  wpx m σ Q' E'.
Proof.
  unfold wpx. destruct (m σ); eauto.
Qed.

Lemma wp_done {A} (m : M A) σ Q :
  wp m σ Q ↔ ∃ a σ', m σ = Done a σ' ∧ Q a σ'.
Proof.
  unfold wp, wpx. destruct (m σ) as [a σ'|msg σ']; split.
  - intros HQ. by exists a, σ'.
  - by intros (? & ? & [= <- <-] & HQ).
  - done.
  - by intros (? & ? & ? & _).
Qed.

(** *** Pointers in a heap that grows *)

Lemma holds_app h fr p c : holds h p c → holds (h ++ fr) p c.
Proof.
  intros (a & -> & Ha). exists a. split; [done|]. by apply lookup_app_l_Some.
Qed.

Lemma holds_last h c : holds (h ++ [c]) (Some (length h)) c.
Proof. exists (length h). split; [done|]. by rewrite list_lookup_middle. Qed.

Lemma holds_middle h c fr : holds (h ++ c :: fr) (Some (length h)) c.
Proof. exists (length h). split; [done|]. by rewrite list_lookup_middle. Qed.

Lemma insert_snoc {A} (l : list A) (x y : A) : <[length l := y]> (l ++ [x]) = l ++ [y].
Proof. by rewrite insert_app_r_alt, Nat.sub_diag by lia. Qed.

Lemma insert_middle {A} (l fr : list A) (x y : A) :
  <[length l := y]> (l ++ x :: fr) = l ++ y :: fr.
Proof. by rewrite insert_app_r_alt, Nat.sub_diag by lia. Qed.

(** Rules for the primitive calls. *)

Lemma wpx_field {A} (f : Params.t → A) a P σ Q E :
  pstore σ !! a = Some P → Q (f P) σ → wpx (field (Some a) f) σ Q E.
Proof.
  intros HP HQ. unfold wpx, field, load_Params, mbind, M_bind. by rewrite HP.
Qed.

Lemma wpx_rand_Int_ok max z r σ Q E :
  rand σ = Scalar z :: r → Q (Ok (z mod max)) (set_rand r σ) →
  wpx (rand_Int max) σ Q E.
Proof.
  intros Hr HQ. unfold wpx, rand_Int. by rewrite Hr.
Qed.

Lemma wpx_index {A} (s : list A) (i : nat) x σ Q E :
  s !! i = Some x → Q x σ → wpx (index s (Z.of_nat i)) σ Q E.
Proof.
  intros Hs HQ. unfold wpx, index.
  destruct (decide _) as [_|]; [|lia].
  by rewrite Nat2Z.id, Hs.
Qed.

Lemma wpx_index_set {A} (s : list A) (i : nat) x σ Q E :
  (i < length s)%nat → Q (<[i := x]> s) σ → wpx (index_set s (Z.of_nat i) x) σ Q E.
Proof.
  intros Hs HQ. unfold wpx, index_set, len.
  destruct (decide _) as [_|]; [|lia].
  by rewrite Nat2Z.id.
Qed.

Lemma wpx_make (n : nat) σ Q E :
  Q (replicate n None) σ → wpx (make (Z.of_nat n)) σ Q E.
Proof.
  intros HQ. unfold wpx, make.
  destruct (decide _) as [_|]; [|lia].
  by rewrite Nat2Z.id.
Qed.

Lemma wpx_new_cell σ Q E :
  Q (Some (length (heap σ))) (set_heap (heap σ ++ [Unset]) σ) → wpx new_cell σ Q E.
Proof. done. Qed.

Lemma wpx_store_cell a c σ Q E :
  (a < length (heap σ))%nat →
  Q () (set_heap (<[a := c]> (heap σ)) σ) →
  wpx (store_cell (Some a) c) σ Q E.
Proof.
  intros Ha HQ. unfold wpx, store_cell. by rewrite decide_True.
Qed.

Lemma wpx_load_G1 p v σ Q E :
  holds (heap σ) p (InG1 v) → Q v σ → wpx (load_G1 p) σ Q E.
Proof.
  intros (a & -> & Ha) HQ.
  unfold wpx, load_G1, load_cell, mbind, M_bind. by rewrite Ha.
Qed.

Lemma wpx_load_G2 p v σ Q E :
  holds (heap σ) p (InG2 v) → Q v σ → wpx (load_G2 p) σ Q E.
Proof.
  intros (a & -> & Ha) HQ.
  unfold wpx, load_G2, load_cell, mbind, M_bind. by rewrite Ha.
Qed.

Lemma wpx_load_GT p v σ Q E :
  holds (heap σ) p (InGT v) → Q v σ → wpx (load_GT p) σ Q E.
Proof.
  intros (a & -> & Ha) HQ.
  unfold wpx, load_GT, load_cell, mbind, M_bind. by rewrite Ha.
Qed.

(** The library methods: the operands hold values, the receiver is an
    address of the heap. *)

Lemma wpx_G1_ScalarMult e a k va σ Q E :
  holds (heap σ) a (InG1 va) → (e < length (heap σ))%nat →
  Q (Some e) (set_heap (<[e := InG1 (bn256.g1_mul va k)]> (heap σ)) σ) →
  wpx (G1_ScalarMult (Some e) a k) σ Q E.
Proof.
  intros Ha He HQ. unfold G1_ScalarMult.
  apply wpx_bind. eapply wpx_load_G1; [done|].
  apply wpx_bind. by apply wpx_store_cell.
Qed.

Lemma wpx_G1_Add e a b va vb σ Q E :
  holds (heap σ) a (InG1 va) → holds (heap σ) b (InG1 vb) →
  (e < length (heap σ))%nat →
  Q (Some e) (set_heap (<[e := InG1 (bn256.g1_add va vb)]> (heap σ)) σ) →
  wpx (G1_Add (Some e) a b) σ Q E.
Proof.
  intros Ha Hb He HQ. unfold G1_Add.
  apply wpx_bind. eapply wpx_load_G1; [done|].
  apply wpx_bind. eapply wpx_load_G1; [done|].
  apply wpx_bind. by apply wpx_store_cell.
Qed.

Lemma wpx_G2_ScalarMult e a k va σ Q E :
  holds (heap σ) a (InG2 va) → (e < length (heap σ))%nat →
  Q (Some e) (set_heap (<[e := InG2 (bn256.g2_mul va k)]> (heap σ)) σ) →
  wpx (G2_ScalarMult (Some e) a k) σ Q E.
Proof.
  intros Ha He HQ. unfold G2_ScalarMult.
  apply wpx_bind. eapply wpx_load_G2; [done|].
  apply wpx_bind. by apply wpx_store_cell.
Qed.

Lemma wpx_G2_Add e a b va vb σ Q E :
  holds (heap σ) a (InG2 va) → holds (heap σ) b (InG2 vb) →
  (e < length (heap σ))%nat →
  Q (Some e) (set_heap (<[e := InG2 (bn256.g2_add va vb)]> (heap σ)) σ) →
  wpx (G2_Add (Some e) a b) σ Q E.
Proof.
  intros Ha Hb He HQ. unfold G2_Add.
  apply wpx_bind. eapply wpx_load_G2; [done|].
  apply wpx_bind. eapply wpx_load_G2; [done|].
  apply wpx_bind. by apply wpx_store_cell.
Qed.

Lemma wpx_GT_ScalarMult e a k va σ Q E :
  holds (heap σ) a (InGT va) → (e < length (heap σ))%nat →
  Q (Some e) (set_heap (<[e := InGT (bn256.gt_mul va k)]> (heap σ)) σ) →
  wpx (GT_ScalarMult (Some e) a k) σ Q E.
Proof.
  intros Ha He HQ. unfold GT_ScalarMult.
  apply wpx_bind. eapply wpx_load_GT; [done|].
  apply wpx_bind. by apply wpx_store_cell.
Qed.

Lemma wpx_GT_Add e a b va vb σ Q E :
  holds (heap σ) a (InGT va) → holds (heap σ) b (InGT vb) →
  (e < length (heap σ))%nat →
  Q (Some e) (set_heap (<[e := InGT (bn256.gt_add va vb)]> (heap σ)) σ) →
  wpx (GT_Add (Some e) a b) σ Q E.
Proof.
  intros Ha Hb He HQ. unfold GT_Add.
  apply wpx_bind. eapply wpx_load_GT; [done|].
  apply wpx_bind. eapply wpx_load_GT; [done|].
  apply wpx_bind. by apply wpx_store_cell.
Qed.

Lemma wpx_GT_Neg e a va σ Q E :
  holds (heap σ) a (InGT va) → (e < length (heap σ))%nat →
  Q (Some e) (set_heap (<[e := InGT (bn256.gt_neg va)]> (heap σ)) σ) →
  wpx (GT_Neg (Some e) a) σ Q E.
Proof.
  intros Ha He HQ. unfold GT_Neg.
  apply wpx_bind. eapply wpx_load_GT; [done|].
  apply wpx_bind. by apply wpx_store_cell.
Qed.

Lemma wpx_Pair a b va vb σ Q E :
  holds (heap σ) a (InG1 va) → holds (heap σ) b (InG2 vb) →
  Q (Some (length (heap σ))) (set_heap (heap σ ++ [InGT (bn256.pair va vb)]) σ) →
  wpx (Pair a b) σ Q E.
Proof.
  intros Ha Hb HQ. unfold Pair.
  apply wpx_bind. eapply wpx_load_G1; [done|].
  apply wpx_bind. eapply wpx_load_G2; [done|].
  apply wpx_bind. apply wpx_new_cell.
  apply wpx_bind. apply wpx_store_cell; simpl.
  { rewrite length_app. simpl. lia. }
  by rewrite insert_snoc.
Qed.

Lemma wpx_deepClone g v σ Q E :
  holds (heap σ) g (InG1 v) →
  Q (Some (length (heap σ))) (set_heap (heap σ ++ [InG1 v]) σ) →
  wpx (deepClone g) σ Q E.
Proof.
  intros Hg HQ. unfold deepClone.
  apply wpx_bind. eapply wpx_load_G1; [done|].
  apply wpx_bind. apply wpx_new_cell.
  apply wpx_bind. apply wpx_store_cell; simpl.
  { rewrite length_app. simpl. lia. }
  by rewrite insert_snoc.
Qed.

(** *** The loops

    The accumulation loop, from a heap where the accumulator is the
    cell after [pre]: [n] iterations from index [i] add as many terms to
    the accumulator and leave as many new elements at the end of the
    heap. *)
Lemma for_loop_accumulate pa P (id : list Z) pre hs ps r Q E n :
  ∀ i v post,
  ps !! pa = Some P →
  Forall2 (λ p v, holds pre p (InG1 v)) (Params.H P) hs →
  (i + n ≤ length id)%nat →
  (i + n ≤ length hs)%nat →
  Q () (mkState
          (pre ++ InG1 (fold_left acc_step (zip (take n (drop i hs)) (take n (drop i id))) v)
               :: post ++ ((λ hx, InG1 (bn256.g1_mul hx.1 hx.2)) <$> zip (take n (drop i hs)) (take n (drop i id))))
          ps r) →
  wpx (for_loop n (Z.of_nat i) (accumulate_body (Some pa) id (Some (length pre))) ())
      (mkState (pre ++ InG1 v :: post) ps r) Q E.
Proof.
  induction n as [|n IH]; intros i v post Hpa HH Hid Hhs HQ.
  - simpl in *. by rewrite app_nil_r in HQ.
  - simpl for_loop.
    destruct (lookup_lt_is_Some_2 id i) as [x Hx]; [lia|].
    destruct (lookup_lt_is_Some_2 hs i) as [hv Hhv]; [lia|].
    destruct (Forall2_lookup_r _ _ _ _ _ HH Hhv) as (hp & Hhp & Hholds).
    apply wpx_bind. unfold accumulate_body at 1.
    apply wpx_bind, wpx_new_cell. simpl.
    apply wpx_bind. eapply wpx_field; [done|].
    apply wpx_bind. eapply wpx_index; [done|].
    apply wpx_bind. eapply wpx_index; [done|].
    apply wpx_bind. eapply wpx_G1_ScalarMult; simpl.
    { apply holds_app, holds_app. done. }
    { rewrite !length_app. simpl. lia. }
    rewrite insert_snoc.
    apply wpx_bind. eapply wpx_G1_Add; simpl.
    { apply holds_app, holds_middle. }
    { apply holds_last. }
    { rewrite !length_app. simpl. lia. }
    rewrite insert_app_l by (rewrite length_app; simpl; lia).
    rewrite insert_middle.
    apply wpx_ret.
    replace (Z.of_nat i + 1) with (Z.of_nat (S i)) by lia.
    rewrite <- app_assoc. simpl.
    apply IH; [done|done|lia|lia|].
    rewrite (drop_S hs hv i Hhv), (drop_S id x i Hx) in HQ. simpl in HQ.
    rewrite <- app_assoc. simpl. exact HQ.
Qed.

Lemma zip_take_length {A B} (l1 : list A) (l2 : list B) :
  zip (take (length l2) l1) l2 = zip l1 l2.
Proof.
  revert l1. induction l2 as [|y l2 IH]; intros [|x l1]; simpl; try done.
  by rewrite IH.
Qed.

Lemma wpx_accumulate pa P (id : list Z) pre hs ps r v Q E :
  ps !! pa = Some P →
  Forall2 (λ p v, holds pre p (InG1 v)) (Params.H P) hs →
  (length id ≤ length hs)%nat →
  Q () (mkState
          (pre ++ InG1 (fold_left acc_step (zip hs id) v)
               :: ((λ hx, InG1 (bn256.g1_mul hx.1 hx.2)) <$> zip hs id))
          ps r) →
  wpx (accumulate (Some pa) id (Some (length pre)))
      (mkState (pre ++ [InG1 v]) ps r) Q E.
Proof.
  intros Hpa HH Hlen HQ. unfold accumulate, len. rewrite Nat2Z.id.
  apply (for_loop_accumulate pa P id pre hs ps r Q E (length id) 0%nat v []);
    [done|done|simpl; lia|simpl; lia|].
  simpl drop. rewrite firstn_all, zip_take_length. exact HQ.
Qed.

(** The loop of [KeyGenFromMaster] that fills [key.B]. *)
Lemma for_loop_fill_master pa P (k : nat) (rr : Z) base hs ps r Q E n :
  ∀ (Bd : list ptr) cells i B0 h0,
  i = Z.of_nat (length Bd) →
  B0 = Bd ++ replicate n None →
  h0 = base ++ cells →
  ps !! pa = Some P →
  Forall2 (λ p v, holds base p (InG1 v)) (Params.H P) hs →
  (k + length Bd + n ≤ length hs)%nat →
  Q (Bd ++ (Some <$> seq (length base + length cells) n))
    (mkState (base ++ cells ++
                ((λ v, InG1 (bn256.g1_mul v rr)) <$> take n (drop (k + length Bd) hs)))
             ps r) →
  wpx (for_loop n i (λ j B,
         e ← new_cell;
         Hs ← field (Some pa) Params.H;
         h ← index Hs (Z.of_nat k + j);
         b ← G1_ScalarMult e h rr;
         index_set B j b) B0)
      (mkState h0 ps r) Q E.
Proof.
  induction n as [|n IH]; intros Bd cells i B0 h0 -> -> -> Hpa HH Hlen HQ.
  - simpl in *. by rewrite !app_nil_r in *.
  - simpl for_loop.
    destruct (lookup_lt_is_Some_2 hs (k + length Bd)) as [hv Hhv]; [lia|].
    destruct (Forall2_lookup_r _ _ _ _ _ HH Hhv) as (hp & Hhp & Hholds).
    apply wpx_bind.
    apply wpx_bind, wpx_new_cell. simpl.
    apply wpx_bind. eapply wpx_field; [done|].
    rewrite <- Nat2Z.inj_add.
    apply wpx_bind. eapply wpx_index; [done|].
    apply wpx_bind. eapply wpx_G1_ScalarMult; simpl.
    { by apply holds_app, holds_app. }
    { rewrite !length_app. simpl. lia. }
    rewrite insert_snoc.
    apply wpx_index_set.
    { rewrite length_app. simpl. lia. }
    rewrite insert_app_r_alt, Nat.sub_diag by lia. simpl.
    eapply (IH (Bd ++ [Some (length (base ++ cells))])
               (cells ++ [InG1 (bn256.g1_mul hv rr)])); try done.
    + rewrite length_app. simpl. lia.
    + by rewrite <- app_assoc.
    + by rewrite app_assoc.
    + rewrite length_app. simpl. lia.
    + rewrite (drop_S hs hv _ Hhv) in HQ. simpl in HQ.
      rewrite !length_app. simpl length.
      replace (k + (length Bd + 1))%nat with (S (k + length Bd)) by lia.
      replace (length base + (length cells + 1))%nat with (S (length base + length cells)) by lia.
      rewrite <- !app_assoc. simpl.
      exact HQ.
Qed.

(** *** What each call computes

    For well-formed arguments and a source that answers, each call
    returns; the heap it leaves extends the one it found, and the
    elements it returns hold the values of the scheme. *)

Lemma holds_prefix h h' p c : h `prefix_of` h' → holds h p c → holds h' p c.
Proof. intros [fr ->]. apply holds_app. Qed.

Lemma Forall2_holds_prefix {A} (f : A → cell) h h' (ps : list ptr) (vs : list A) :
  h `prefix_of` h' →
  Forall2 (λ p v, holds h p (f v)) ps vs →
  Forall2 (λ p v, holds h' p (f v)) ps vs.
Proof.
  intros Hpre HF. eapply Forall2_impl; [exact HF|].
  intros p v. by apply holds_prefix.
Qed.

Lemma Forall2_holds_fresh {A} (f : A → cell) base (vs : list A) :
  Forall2 (λ p v, holds (base ++ (f <$> vs)) p (f v))
          (Some <$> seq (length base) (length vs)) vs.
Proof.
  apply Forall2_same_length_lookup_2.
  - by rewrite length_fmap, length_seq.
  - intros i p v Hp Hv.
    rewrite list_lookup_fmap in Hp.
    destruct (seq _ _ !! i) as [a|] eqn:Ha; [|done]. simpl in Hp.
    injection Hp as <-.
    apply lookup_seq in Ha as [-> _].
    exists (length base + i)%nat. split; [done|].
    rewrite lookup_app_r by lia.
    replace (length base + i - length base)%nat with i by lia.
    by rewrite list_lookup_fmap, Hv.
Qed.

(** [KeyGenFromMaster] on well-formed params, for a path no deeper than
    [l], with the scalar [z] next in the source: the key of the path with
    randomizer [z mod Order]. *)
Lemma KeyGenFromMaster_spec σ params P V master mv (id : list Z) z rest :
  params_at σ params P V →
  holds (heap σ) master (InG1 mv) →
  (length id ≤ length (Params.H P))%nat →
  rand σ = Scalar z :: rest →
  wp (KeyGenFromMaster params master id) σ (λ res σ',
    ∃ key, res = (Some key, None) ∧
      heap σ `prefix_of` heap σ' ∧ pstore σ' = pstore σ ∧ rand σ' = rest ∧
      key_at (heap σ') V mv id (z mod bn256.Order) key).
Proof.
  destruct σ as [h ps r]. simpl.
  intros ((pa & -> & HP) & HG & HG1 & HG2 & HG3 & HH & _) Hm Hk ->. simpl in *.
  pose proof (Forall2_length _ _ _ HH) as Hl.
  unfold wp, KeyGenFromMaster.
  apply wpx_bind. eapply wpx_field; [done|].
  rewrite decide_False by (unfold len; lia).
  apply wpx_bind. eapply wpx_rand_Int_ok; [done|]. simpl.
  set (R := z mod bn256.Order).
  apply wpx_bind. eapply wpx_field; [done|].
  apply wpx_bind. eapply wpx_deepClone; [done|]. simpl.
  apply wpx_bind. unfold set_heap, set_rand; simpl.
  eapply wpx_accumulate; [done|done|lia|].
  fold (id_point V id).
  apply wpx_bind. eapply wpx_G1_ScalarMult; simpl.
  { apply holds_middle. }
  { rewrite !length_app. simpl. lia. }
  rewrite insert_middle.
  apply wpx_bind, wpx_new_cell. simpl.
  apply wpx_bind. eapply wpx_G1_Add; simpl.
  { by apply holds_app, holds_app. }
  { apply holds_app, holds_middle. }
  { rewrite !length_app. simpl. lia. }
  rewrite insert_snoc.
  apply wpx_bind, wpx_new_cell. simpl.
  apply wpx_bind. eapply wpx_field; [done|].
  apply wpx_bind. eapply wpx_G2_ScalarMult; simpl.
  { by apply holds_app, holds_app, holds_app. }
  { rewrite !length_app. simpl. lia. }
  rewrite insert_snoc.
  unfold len. rewrite <- Nat2Z.inj_sub by lia.
  apply wpx_bind. apply wpx_make.
  rewrite Nat2Z.id.
  apply wpx_bind. unfold set_heap; simpl.
  match goal with |- wpx _ (mkState ?hh _ _) _ _ => set (base := hh) end.
  eapply (for_loop_fill_master pa P (length id) R base (vH V) ps rest _ _ _ [] []);
    try done.
  { by rewrite app_nil_r. }
  { subst base. eapply Forall2_holds_prefix; [|exact HH].
    rewrite <- !app_assoc. by apply prefix_app_r. }
  { simpl. lia. }
  simpl. rewrite !Nat.add_0_r.
  apply wpx_ret.
  assert (Hn : (length (Params.H P) - length id)%nat = length (drop (length id) (vH V))).
  { rewrite length_drop. lia. }
  rewrite Hn, firstn_all.
  eexists. split; [done|]. simpl. split; [|split; [done|split; [done|]]].
  { subst base. rewrite <- !app_assoc. by apply prefix_app_r. }
  split; [|split]; simpl.
  - apply holds_app. subst base. apply holds_app, holds_last.
  - apply holds_app. subst base. apply holds_last.
  - apply Forall2_holds_fresh.
Qed.

Lemma wpx_update_Params f a P σ Q E :
  pstore σ !! a = Some P →
  Q () (set_pstore (<[a := f P]> (pstore σ)) σ) →
  wpx (update_Params (Some a) f) σ Q E.
Proof.
  intros HP HQ. unfold wpx, update_Params. by rewrite HP.
Qed.

Lemma params_frame_refl P : params_frame P P.
Proof. by repeat split. Qed.

(** The block that [Precache] and [Encrypt] share: fill the cache slot
    if it is nil. *)
Lemma wpx_fill_cache pa P V h ps r Q E :
  params_at (mkState h ps r) (Some pa) P V →
  (∀ h' P',
     h `prefix_of` h' →
     params_frame P P' →
     (Params.Pairing P ≠ None → h' = h ∧ P' = P) →
     holds h' (Params.Pairing P') (InGT (bn256.pair (vG2 V) (vG1 V))) →
     Q () (mkState h' (<[pa := P']> ps) r)) →
  wpx (match Params.Pairing P with
       | None =>
           g2 ← field (Some pa) Params.G2;
           g1 ← field (Some pa) Params.G1;
           p ← Pair g2 g1;
           update_Params (Some pa) (Params.set_Pairing p)
       | Some _ => mret ()
       end) (mkState h ps r) Q E.
Proof.
  intros ((? & [= <-] & HP) & HG & HG1 & HG2 & HG3 & HH & Hc) HQ. simpl in *.
  destruct (Params.Pairing P) as [c|] eqn:Hpair.
  - apply wpx_ret.
    destruct Hc as [|Hc]; [done|].
    specialize (HQ h P). rewrite list_insert_id in HQ by done.
    apply HQ; [done|apply params_frame_refl|done|by rewrite Hpair].
  - apply wpx_bind. eapply wpx_field; [done|].
    apply wpx_bind. eapply wpx_field; [done|].
    apply wpx_bind. eapply wpx_Pair; [done|done|]. simpl.
    eapply wpx_update_Params; [done|]. simpl.
    apply HQ.
    + by apply prefix_app_r.
    + repeat split; try done; simpl; by rewrite Hpair.
    + done.
    + simpl. apply holds_last.
Qed.


Lemma params_at_frame σ σ' params P P' V :
  params_at σ params P V →
  heap σ `prefix_of` heap σ' →
  (∃ a, params = Some a ∧ pstore σ' !! a = Some P') →
  params_frame P P' →
  (Params.Pairing P' = None ∨
   holds (heap σ') (Params.Pairing P') (InGT (bn256.pair (vG2 V) (vG1 V)))) →
  params_at σ' params P' V.
Proof.
  intros (_ & HG & HG1 & HG2 & HG3 & HH & _) Hpre Hst (EG & EG1 & EG2 & EG3 & EH & _) Hc.
  unfold params_at. rewrite EG, EG1, EG2, EG3, EH.
  repeat split; try done; try by eapply holds_prefix.
  by eapply Forall2_holds_prefix.
Qed.

(** [Encrypt] on well-formed params: the cache is set when the call
    returns, and the ciphertext is the encryption of the message with
    the scalar drawn. *)
Lemma Encrypt_spec σ params P V message m (id : list Z) z rest :
  params_at σ params P V →
  holds (heap σ) message (InGT m) →
  (length id ≤ length (Params.H P))%nat →
  rand σ = Scalar z :: rest →
  wp (Encrypt params id message) σ (λ res σ',
    ∃ ct P', res = (Some ct, None) ∧
      heap σ `prefix_of` heap σ' ∧ rand σ' = rest ∧
      params_at σ' params P' V ∧ params_frame P P' ∧
      holds (heap σ') (Params.Pairing P') (InGT (bn256.pair (vG2 V) (vG1 V))) ∧
      ct_at (heap σ') V id (z mod bn256.Order) m ct).
Proof.
  destruct σ as [h ps r]. simpl.
  intros Hat Hm Hk ->.
  pose proof Hat as ((pa & -> & HP) & HG & HG1 & HG2 & HG3 & HH & _). simpl in *.
  pose proof (Forall2_length _ _ _ HH) as Hl.
  unfold wp, Encrypt.
  apply wpx_bind. eapply wpx_rand_Int_ok; [done|]. simpl.
  set (s := z mod bn256.Order).
  apply wpx_bind. unfold set_rand; simpl.
  eapply wpx_field; [done|].
  apply wpx_bind.
  apply (wpx_fill_cache pa P V); [done|].
  intros h' P' Hpre Hfr _ Hpair.
  assert (HP' : <[pa := P']> ps !! pa = Some P').
  { apply list_lookup_insert_eq. by eapply lookup_lt_Some. }
  pose proof Hfr as (EG & EG1 & EG2 & EG3 & EH & _).
  apply wpx_bind, wpx_new_cell. simpl.
  apply wpx_bind. eapply wpx_field; [done|].
  apply wpx_bind. eapply wpx_GT_ScalarMult; simpl.
  { by apply holds_app. }
  { rewrite !length_app. simpl. lia. }
  rewrite insert_snoc.
  apply wpx_bind. eapply wpx_GT_Add; simpl.
  { apply holds_last. }
  { by eapply holds_app, holds_prefix. }
  { rewrite !length_app. simpl. lia. }
  rewrite insert_snoc.
  apply wpx_bind, wpx_new_cell. simpl.
  apply wpx_bind. eapply wpx_field; [done|].
  apply wpx_bind. eapply wpx_G2_ScalarMult; simpl.
  { rewrite EG. by eapply holds_app, holds_app, holds_prefix. }
  { rewrite !length_app. simpl. lia. }
  rewrite insert_snoc.
  apply wpx_bind. eapply wpx_field; [done|].
  apply wpx_bind. eapply wpx_deepClone; simpl.
  { rewrite EG3. by eapply holds_app, holds_app, holds_prefix. }
  apply wpx_bind. unfold set_heap; simpl.
  eapply (wpx_accumulate pa P' id _ (vH V)); [done| |lia|].
  { rewrite EH. eapply Forall2_holds_prefix; [|exact HH].
    etrans; [exact Hpre|]. rewrite <- app_assoc. by apply prefix_app_r. }
  fold (id_point V id).
  apply wpx_bind. eapply wpx_G1_ScalarMult; simpl.
  { apply holds_middle. }
  { rewrite !length_app. simpl. lia. }
  rewrite insert_middle.
  apply wpx_ret. unfold set_heap; simpl.
  match goal with |- context [mkState ?hh _ _] => set (hf := hh) end.
  assert (Hpf : h' `prefix_of` hf).
  { subst hf. rewrite <- !app_assoc. by apply prefix_app_r. }
  eexists _, P'. split; [done|]. simpl.
  split; [by etrans|]. split; [done|].
  split; [|split; [done|split]].
  - eapply params_at_frame; [exact Hat| |by eexists|done|].
    + simpl. by etrans.
    + right. by eapply holds_prefix.
  - by eapply holds_prefix.
  - split; [|split]; simpl; subst hf.
    + apply holds_app, holds_app, holds_last.
    + apply holds_app, holds_last.
    + apply holds_middle.
Qed.

(** [Decrypt]: [A + (e(C, A1) - e(A0, B))] in a new element. *)
Lemma Decrypt_spec σ key ct a0 a1 ca cb cc :
  holds (heap σ) (PrivateKey.A0 key) (InG1 a0) →
  holds (heap σ) (PrivateKey.A1 key) (InG2 a1) →
  holds (heap σ) (Ciphertext.A ct) (InGT ca) →
  holds (heap σ) (Ciphertext.B ct) (InG2 cb) →
  holds (heap σ) (Ciphertext.C ct) (InG1 cc) →
  wp (Decrypt key ct) σ (λ p σ',
    heap σ `prefix_of` heap σ' ∧ pstore σ' = pstore σ ∧ rand σ' = rand σ ∧
    holds (heap σ') p
      (InGT (bn256.gt_add ca
               (bn256.gt_add (bn256.pair cc a1)
                             (bn256.gt_neg (bn256.pair a0 cb)))))).
Proof.
  destruct σ as [h ps r]. simpl.
  intros HA0 HA1 HA HB HC.
  unfold wp, Decrypt.
  apply wpx_bind. eapply wpx_Pair; [done|done|]. simpl.
  apply wpx_bind, wpx_new_cell. simpl.
  apply wpx_bind. eapply wpx_Pair; simpl.
  { by apply holds_app, holds_app. }
  { by apply holds_app, holds_app. }
  apply wpx_bind. eapply wpx_GT_Neg; simpl.
  { apply holds_last. }
  { rewrite !length_app. simpl. lia. }
  rewrite insert_app_l by (rewrite !length_app; simpl; lia).
  rewrite insert_snoc.
  apply wpx_bind. eapply wpx_GT_Add; simpl.
  { apply holds_app, holds_app, holds_last. }
  { apply holds_app, holds_last. }
  { rewrite !length_app. simpl. lia. }
  rewrite !insert_app_l by (rewrite !length_app; simpl; lia).
  rewrite insert_snoc.
  apply wpx_bind. eapply wpx_GT_Add; simpl.
  { by apply holds_app, holds_app, holds_app. }
  { apply holds_app, holds_app, holds_last. }
  { rewrite !length_app. simpl. lia. }
  rewrite !insert_app_l by (rewrite !length_app; simpl; lia).
  rewrite insert_snoc.
  apply wpx_ret. simpl.
  split; [|split; [done|split; [done|]]].
  - rewrite <- !app_assoc. by apply prefix_app_r.
  - apply holds_app, holds_app, holds_last.
Qed.

(** The loop of [KeyGenFromParent] that fills [key.B]. *)
Lemma for_loop_fill_parent pa P (k : nat) (t : Z) base hs (pB : list ptr) bs ps r Q E n :
  ∀ (Bd : list ptr) cells i B0 h0,
  i = Z.of_nat (length Bd) →
  B0 = Bd ++ replicate n None →
  h0 = base ++ cells →
  ps !! pa = Some P →
  Forall2 (λ p v, holds base p (InG1 v)) (Params.H P) hs →
  Forall2 (λ p v, holds base p (InG1 v)) pB bs →
  (k + length Bd + n ≤ length hs)%nat →
  (S (length Bd) + n ≤ length bs)%nat →
  Q (Bd ++ (Some <$> seq (length base + length cells) n))
    (mkState (base ++ cells ++
                zip_with (λ b v, InG1 (bn256.g1_add b (bn256.g1_mul v t)))
                         (take n (drop (S (length Bd)) bs))
                         (take n (drop (k + length Bd) hs)))
             ps r) →
  wpx (for_loop n i (λ j B,
         e ← new_cell;
         Hs ← field (Some pa) Params.H;
         h ← index Hs (Z.of_nat k + j);
         b ← G1_ScalarMult e h t;
         B ← index_set B j b;
         bj ← index B j;
         pb ← index pB (j + 1);
         G1_Add bj pb bj;;
         mret B) B0)
      (mkState h0 ps r) Q E.
Proof.
  induction n as [|n IH]; intros Bd cells i B0 h0 -> -> -> Hpa HH HB Hlen Hlenb HQ.
  - simpl in *. by rewrite !app_nil_r in *.
  - simpl for_loop.
    destruct (lookup_lt_is_Some_2 hs (k + length Bd)) as [hv Hhv]; [lia|].
    destruct (Forall2_lookup_r _ _ _ _ _ HH Hhv) as (hp & Hhp & Hholds).
    destruct (lookup_lt_is_Some_2 bs (S (length Bd))) as [bv Hbv]; [lia|].
    destruct (Forall2_lookup_r _ _ _ _ _ HB Hbv) as (bp & Hbp & Hbholds).
    apply wpx_bind.
    apply wpx_bind, wpx_new_cell. simpl.
    apply wpx_bind. eapply wpx_field; [done|].
    rewrite <- Nat2Z.inj_add.
    apply wpx_bind. eapply wpx_index; [done|].
    apply wpx_bind. eapply wpx_G1_ScalarMult; simpl.
    { by apply holds_app, holds_app. }
    { rewrite !length_app. simpl. lia. }
    rewrite insert_snoc.
    apply wpx_bind. apply wpx_index_set.
    { rewrite length_app. simpl. lia. }
    rewrite insert_app_r_alt, Nat.sub_diag by lia. simpl.
    apply wpx_bind. eapply wpx_index; [apply list_lookup_middle; done|].
    replace (Z.of_nat (length Bd) + 1) with (Z.of_nat (S (length Bd))) by lia.
    apply wpx_bind. eapply wpx_index; [done|].
    apply wpx_bind. eapply wpx_G1_Add; simpl.
    { by apply holds_app, holds_app. }
    { apply holds_last. }
    { rewrite !length_app. simpl. lia. }
    rewrite insert_snoc.
    apply wpx_ret.
    eapply (IH (Bd ++ [Some (length (base ++ cells))])
               (cells ++ [InG1 (bn256.g1_add bv (bn256.g1_mul hv t))])); try done.
    + rewrite length_app. simpl. lia.
    + by rewrite <- app_assoc.
    + by rewrite app_assoc.
    + rewrite length_app. simpl. lia.
    + rewrite length_app. simpl. lia.
    + rewrite (drop_S hs hv _ Hhv), (drop_S bs bv _ Hbv) in HQ. simpl in HQ.
      rewrite !length_app. simpl length.
      replace (k + (length Bd + 1))%nat with (S (k + length Bd)) by lia.
      replace (S (length Bd + 1))%nat with (S (S (length Bd))) by lia.
      replace (length base + (length cells + 1))%nat with (S (length base + length cells)) by lia.
      rewrite <- !app_assoc. simpl.
      exact HQ.
Qed.

Lemma zip_snoc {A B} (l1 : list A) (l2 : list B) x y :
  length l1 = length l2 →
  zip (l1 ++ [x]) (l2 ++ [y]) = zip l1 l2 ++ [(x, y)].
Proof.
  revert l2. induction l1 as [|a l1 IH]; intros [|b l2] Hl; simpl in *; try done.
  rewrite IH; [done|lia].
Qed.

(** Extending the path by one segment adds one term to the point. *)
Lemma id_point_snoc V (id : list Z) x hv :
  vH V !! length id = Some hv →
  id_point V (id ++ [x]) = bn256.g1_add (id_point V id) (bn256.g1_mul hv x).
Proof.
  intros Hhv. unfold id_point.
  rewrite <- (zip_take_length (vH V) (id ++ [x])).
  rewrite length_app. simpl.
  replace (length id + 1)%nat with (S (length id)) by lia.
  rewrite (take_S_r _ _ _ Hhv).
  rewrite zip_snoc.
  2:{ rewrite length_take. apply lookup_lt_Some in Hhv. lia. }
  rewrite fold_left_app. simpl.
  by rewrite zip_take_length.
Qed.

(** [KeyGenFromParent] with the key of [id] for the path [id ++ [x]]:
    the key of that path, the randomizer of the parent plus the scalar
    drawn. *)
Lemma KeyGenFromParent_spec σ params P V parent mv (id : list Z) x R z rest :
  params_at σ params P V →
  key_at (heap σ) V mv id R parent →
  (length id < length (Params.H P))%nat →
  rand σ = Scalar z :: rest →
  wp (KeyGenFromParent params parent (id ++ [x])) σ (λ res σ',
    ∃ key, res = (Some key, None) ∧
      heap σ `prefix_of` heap σ' ∧ pstore σ' = pstore σ ∧ rand σ' = rest ∧
      key_at (heap σ') V mv (id ++ [x]) (R + z mod bn256.Order) key).
Proof.
  destruct σ as [h ps r]. simpl.
  intros ((pa & -> & HP) & HG & HG1 & HG2 & HG3 & HH & _) (HA0 & HA1 & HB) Hk ->.
  simpl in *.
  pose proof (Forall2_length _ _ _ HH) as Hl.
  pose proof (Forall2_length _ _ _ HB) as HlB. rewrite length_drop in HlB.
  destruct (lookup_lt_is_Some_2 (vH V) (length id)) as [hv Hhv]; [lia|].
  rewrite (drop_S _ _ _ Hhv) in HB.
  destruct (PrivateKey.B parent) as [|b0 pB] eqn:HpB; [by inversion HB|].
  apply Forall2_cons in HB as [Hb0 HB].
  unfold wp, KeyGenFromParent.
  apply wpx_bind. eapply wpx_field; [done|].
  assert (Hlen : len (id ++ [x]) = Z.of_nat (S (length id))).
  { unfold len. rewrite length_app. simpl. lia. }
  rewrite Hlen.
  rewrite decide_False by (unfold len; lia).
  rewrite decide_False.
  2:{ unfold DepthLeft, len. rewrite HpB. intros Hne. apply Hne. simpl in *. lia. }
  apply wpx_bind. eapply wpx_rand_Int_ok; [done|]. simpl.
  set (t := z mod bn256.Order).
  apply wpx_bind. eapply wpx_field; [done|].
  apply wpx_bind. eapply wpx_deepClone; [done|]. simpl.
  apply wpx_bind. unfold set_heap, set_rand; simpl.
  eapply (wpx_accumulate pa P _ _ (vH V)); [done|done| |].
  { rewrite length_app. simpl. lia. }
  fold (id_point V (id ++ [x])).
  apply wpx_bind. eapply wpx_G1_ScalarMult; simpl.
  { apply holds_middle. }
  { rewrite !length_app. simpl. lia. }
  rewrite insert_middle.
  apply wpx_bind, wpx_new_cell. simpl.
  apply wpx_bind. rewrite HpB. apply (wpx_index _ 0%nat b0); [done|].
  replace (Z.of_nat (S (length id)) - 1) with (Z.of_nat (length id)) by lia.
  apply wpx_bind. eapply wpx_index.
  { by rewrite list_lookup_middle. }
  apply wpx_bind. eapply wpx_G1_ScalarMult; simpl.
  { by apply holds_app, holds_app. }
  { rewrite !length_app. simpl. lia. }
  rewrite insert_snoc.
  apply wpx_bind, wpx_new_cell. simpl.
  apply wpx_bind. eapply wpx_G1_Add; simpl.
  { by apply holds_app, holds_app, holds_app. }
  { apply holds_app, holds_last. }
  { rewrite !length_app. simpl. lia. }
  rewrite insert_snoc.
  apply wpx_bind. eapply wpx_G1_Add; simpl.
  { apply holds_last. }
  { apply holds_app, holds_app, holds_middle. }
  { rewrite !length_app. simpl. lia. }
  rewrite insert_snoc.
  apply wpx_bind, wpx_new_cell. simpl.
  apply wpx_bind. eapply wpx_field; [done|].
  apply wpx_bind. eapply wpx_G2_ScalarMult; simpl.
  { by apply holds_app, holds_app, holds_app, holds_app. }
  { rewrite !length_app. simpl. lia. }
  rewrite insert_snoc.
  apply wpx_bind. eapply wpx_G2_Add; simpl.
  { by apply holds_app, holds_app, holds_app, holds_app. }
  { apply holds_last. }
  { rewrite !length_app. simpl. lia. }
  rewrite insert_snoc.
  unfold len.
  replace (Z.of_nat (length (Params.H P)) - Z.of_nat (S (length id)))
    with (Z.of_nat (length (Params.H P) - S (length id))) by lia.
  apply wpx_bind. apply wpx_make.
  rewrite Nat2Z.id.
  apply wpx_bind. unfold set_heap; simpl.
  match goal with |- wpx _ (mkState ?hh _ _) _ _ => set (base := hh) end.
  assert (Hbase : h `prefix_of` base).
  { subst base. rewrite <- !app_assoc. by apply prefix_app_r. }
  eapply (for_loop_fill_parent pa P (S (length id)) t base (vH V) (b0 :: pB)
            (bn256.g1_mul hv R :: ((λ v, bn256.g1_mul v R) <$> drop (S (length id)) (vH V)))
            ps rest _ _ _ [] []);
    try done.
  { by rewrite app_nil_r. }
  { by eapply Forall2_holds_prefix. }
  { apply Forall2_cons. split; [by eapply holds_prefix|].
    apply Forall2_fmap_r. by eapply Forall2_holds_prefix. }
  { simpl. lia. }
  { simpl. rewrite length_fmap, length_drop. lia. }
  simpl. rewrite !Nat.add_0_r.
  apply wpx_ret.
  assert (Hn : (length (Params.H P) - S (length id))%nat
               = length (drop (S (length id)) (vH V))).
  { rewrite length_drop. lia. }
  rewrite Hn. clear Hn.
  set (D := drop (S (length id)) (vH V)).
  rewrite drop_0, firstn_all, (take_ge ((λ v, bn256.g1_mul v R) <$> D))
    by (rewrite length_fmap; lia).
  rewrite zip_with_fmap_l, zip_with_diag.
  rewrite (list_fmap_ext _ (λ v, InG1 (bn256.g1_mul v (R + t))) D)
    by (intros ? v _; simpl; by rewrite bn256.g1_mul_add_l).
  eexists. split; [done|]. simpl. split; [|split; [done|split; [done|]]].
  { etrans; [exact Hbase|]. by apply prefix_app_r. }
  split; [|split]; simpl.
  - apply holds_app. subst base. apply holds_app.
    rewrite (id_point_snoc V id x hv Hhv).
    match goal with |- holds _ _ (InG1 ?a) =>
      replace a with (bn256.g1_add
        (bn256.g1_add (bn256.g1_add mv (bn256.g1_mul (id_point V id) R))
                      (bn256.g1_mul (bn256.g1_mul hv R) x))
        (bn256.g1_mul (bn256.g1_add (id_point V id) (bn256.g1_mul hv x)) t))
    end; [apply holds_last|].
    rewrite (bn256.g1_mul_add_l _ R t), !bn256.g1_mul_add_r, !bn256.g1_mul_mul.
    rewrite (Z.mul_comm R x), !bn256.g1_add_assoc. done.
  - apply holds_app. subst base.
    rewrite bn256.g2_mul_add_l. apply holds_last.
  - rewrite length_app. simpl. rewrite Nat.add_1_r.
    apply (Forall2_holds_fresh (λ v, InG1 (bn256.g1_mul v (R + t)))).
Qed.







(** *** The algebra of decryption *)

Lemma gt_add_zero_r a : bn256.gt_add a bn256.gt_zero = a.
Proof. by rewrite bn256.gt_add_comm, bn256.gt_add_zero. Qed.

(** [y - (x + y) = - x]. *)
Lemma gt_cancel x y :
  bn256.gt_add y (bn256.gt_neg (bn256.gt_add x y)) = bn256.gt_neg x.
Proof.
  set (n := bn256.gt_neg (bn256.gt_add x y)).
  rewrite <- (bn256.gt_add_zero (bn256.gt_add y n)).
  rewrite <- (bn256.gt_add_neg x).
  rewrite (bn256.gt_add_comm x (bn256.gt_neg x)).
  rewrite <- bn256.gt_add_assoc.
  rewrite (bn256.gt_add_assoc x y n).
  subst n. by rewrite bn256.gt_add_neg, gt_add_zero_r.
Qed.

(** What [Decrypt] computes from the values of a key of accumulated
    randomizer [R] and of a ciphertext of scalar [s] for the same point
    [pt]: the randomizer has gone. *)
Lemma decrypt_value (g : bn256.G2) (mv pt : bn256.G1) (ca : bn256.GT) R s :
  bn256.gt_add ca
    (bn256.gt_add (bn256.pair (bn256.g1_mul pt s) (bn256.g2_mul g R))
       (bn256.gt_neg (bn256.pair (bn256.g1_add mv (bn256.g1_mul pt R))
                                 (bn256.g2_mul g s))))
  = bn256.gt_add ca (bn256.gt_neg (bn256.gt_mul (bn256.pair mv g) s)).
Proof.
  f_equal.
  rewrite bn256.pair_add_l, !bn256.pair_mul_r, !bn256.pair_mul_l, !bn256.gt_mul_mul.
  rewrite (Z.mul_comm R s). apply gt_cancel.
Qed.


(** *** Chaining the calls *)

Lemma params_at_keep σ σ' params P V :
  params_at σ params P V →
  heap σ `prefix_of` heap σ' →
  pstore σ' = pstore σ →
  params_at σ' params P V.
Proof.
  intros Hat Hpre Hps.
  pose proof Hat as (Hst & _ & _ & _ & _ & _ & Hc).
  eapply params_at_frame; [exact Hat|done| |apply params_frame_refl|].
  - by rewrite Hps.
  - destruct Hc as [Hc|Hc]; [by left|right]. by eapply holds_prefix.
Qed.

Lemma key_at_prefix h h' V mv id R key :
  h `prefix_of` h' → key_at h V mv id R key → key_at h' V mv id R key.
Proof.
  intros Hpre (HA0 & HA1 & HB).
  split; [|split]; try by eapply holds_prefix.
  by eapply (Forall2_holds_prefix (λ v, InG1 (bn256.g1_mul v R))).
Qed.

Lemma ct_at_prefix h h' V id s m ct :
  h `prefix_of` h' → ct_at h V id s m ct → ct_at h' V id s m ct.
Proof.
  intros Hpre (HA & HB & HC).
  split; [|split]; by eapply holds_prefix.
Qed.

(** Decrypting with any key of the path the ciphertext was made for. *)
Lemma Decrypt_key_ct σ V mv id R s m key ct :
  key_at (heap σ) V mv id R key →
  ct_at (heap σ) V id s m ct →
  ∃ p σ', Decrypt key ct σ = Done p σ' ∧
    heap σ `prefix_of` heap σ' ∧ pstore σ' = pstore σ ∧ rand σ' = rand σ ∧
    holds (heap σ') p
      (InGT (bn256.gt_add
               (bn256.gt_add (bn256.gt_mul (bn256.pair (vG2 V) (vG1 V)) s) m)
               (bn256.gt_neg (bn256.gt_mul (bn256.pair mv (vG V)) s)))).
Proof.
  intros (HA0 & HA1 & _) (HA & HB & HC).
  pose proof (Decrypt_spec σ key ct _ _ _ _ _ HA0 HA1 HA HB HC) as Hwp.
  apply wp_done in Hwp as (p & σ' & Hrun & Hpre & Hps & Hr & Hv).
  rewrite decrypt_value in Hv.
  by exists p, σ'.
Qed.


Lemma bind_Done {A B} (m : M A) (f : A → M B) σ a σ' :
  m σ = Done a σ' → (m ≫= f) σ = f a σ'.
Proof. intros Hm. unfold mbind, M_bind. by rewrite Hm. Qed.

(** Delegation down [tail] from a key of [path] gives a key of
    [path ++ tail]. *)
Lemma KeyGenChain_spec params P V mv (tail : list Z) :
  ∀ (path : list Z) key R σ (zs : list Z) rest,
  params_at σ params P V →
  key_at (heap σ) V mv path R key →
  (length path + length tail ≤ length (Params.H P))%nat →
  rand σ = (Scalar <$> zs) ++ rest →
  length zs = length tail →
  ∃ key' σ' R',
    KeyGenChain params key path tail σ = Done (Some key', None) σ' ∧
    heap σ `prefix_of` heap σ' ∧ pstore σ' = pstore σ ∧ rand σ' = rest ∧
    key_at (heap σ') V mv (path ++ tail) R' key'.
Proof.
  induction tail as [|x tail IH]; intros path key R σ zs rest Hat Hkey Hlen Hrand Hzs.
  - destruct zs; [|done]. simpl in *.
    exists key, σ, R. rewrite app_nil_r. by split; [|split; [|split; [|split]]].
  - destruct zs as [|z zs]; [done|]. simpl in *. injection Hzs as Hzs.
    assert (Hlt : (length path < length (Params.H P))%nat) by lia.
    pose proof (KeyGenFromParent_spec σ params P V key mv path x R z _ Hat Hkey Hlt Hrand) as Hwp.
    apply wp_done in Hwp as (? & σ1 & Hrun & child & -> & Hpre & Hps & Hr & Hchild).
    pose proof (params_at_keep _ _ _ _ _ Hat Hpre Hps) as Hat1.
    destruct (IH (path ++ [x]) child _ σ1 zs rest Hat1 Hchild) as
      (key' & σ' & R' & Hrun' & Hpre' & Hps' & Hr' & Hkey'); [|done|done|].
    { rewrite length_app. simpl. lia. }
    exists key', σ', R'.
    rewrite (bind_Done _ _ _ _ _ Hrun). simpl.
    rewrite <- app_assoc in Hkey'. simpl in Hkey'.
    split; [done|]. split; [by etrans|]. split; [congruence|]. done.
Qed.

(** Delegation from the root gives a key of the path. *)
Lemma KeyGenDelegated_spec σ params P V master mv (id : list Z) zs rest :
  params_at σ params P V →
  holds (heap σ) master (InG1 mv) →
  (length id ≤ length (Params.H P))%nat →
  rand σ = (Scalar <$> zs) ++ rest →
  length zs = S (length id) →
  ∃ key σ' R,
    KeyGenDelegated params master id σ = Done (Some key, None) σ' ∧
    heap σ `prefix_of` heap σ' ∧ pstore σ' = pstore σ ∧ rand σ' = rest ∧
    key_at (heap σ') V mv id R key.
Proof.
  intros Hat Hm Hlen Hrand Hzs.
  destruct zs as [|z zs]; [done|]. simpl in *. injection Hzs as Hzs.
  assert (H0 : (length (@nil Z) ≤ length (Params.H P))%nat) by (simpl; lia).
  pose proof (KeyGenFromMaster_spec σ params P V master mv [] z _ Hat Hm H0 Hrand) as Hwp.
  apply wp_done in Hwp as (? & σ1 & Hrun & root & -> & Hpre & Hps & Hr & Hroot).
  pose proof (params_at_keep _ _ _ _ _ Hat Hpre Hps) as Hat1.
  destruct (KeyGenChain_spec params P V mv id [] root _ σ1 zs rest Hat1 Hroot)
    as (key & σ' & R & Hrun' & Hpre' & Hps' & Hr' & Hkey); [simpl; lia|done|done|].
  exists key, σ', R.
  unfold KeyGenDelegated. rewrite (bind_Done _ _ _ _ _ Hrun). simpl.
  split; [done|]. split; [by etrans|]. split; [congruence|]. done.
Qed.

(** *** The frame: what a call leaves as it was *)

Lemma frame_refl σ : frame σ σ.
Proof.
  split; [done|]. split; [done|].
  intros a P0 HP. exists P0. split; [done|apply params_frame_refl].
Qed.

Lemma frame_alloc σ0 σ c : frame σ0 σ → frame σ0 (set_heap (heap σ ++ [c]) σ).
Proof.
  intros (Hh & Hl & Hp). split; [|done]. simpl.
  etrans; [exact Hh|]. by apply prefix_app_r.
Qed.

Lemma frame_write σ0 σ n c :
  frame σ0 σ → (length (heap σ0) ≤ n)%nat →
  frame σ0 (set_heap (<[n := c]> (heap σ)) σ).
Proof.
  intros ([fr Hh] & Hl & Hp) Hn. split; [|done]. simpl.
  rewrite Hh, insert_app_r_alt by done. by apply prefix_app_r.
Qed.

Lemma frame_rand σ0 σ r : frame σ0 σ → frame σ0 (set_rand r σ).
Proof. by intros (Hh & Hl & Hp). Qed.

(** Filling a cache slot that is nil. *)
Lemma frame_cache σ0 σ a P v :
  frame σ0 σ → pstore σ !! a = Some P → Params.Pairing P = None →
  frame σ0 (set_pstore (<[a := Params.set_Pairing v P]> (pstore σ)) σ).
Proof.
  intros (Hh & Hl & Hp) HP Hnone. split; [done|]. simpl.
  split; [by rewrite length_insert|].
  intros b P0 HP0. destruct (Hp b P0 HP0) as (P1 & HP1 & Hf).
  destruct (decide (a = b)) as [->|Hne].
  - rewrite list_lookup_insert_eq by (by eapply lookup_lt_Some).
    eexists. split; [done|].
    assert (P1 = P) as -> by congruence.
    destruct Hf as (E1 & E2 & E3 & E4 & E5 & E6).
    repeat split; try done. simpl. intros Hne.
    specialize (E6 Hne). congruence.
  - rewrite list_lookup_insert_ne by done. by exists P1.
Qed.

(** Writing a [Params] that [σ0] does not have. *)
Lemma frame_pstore_new σ0 σ a P :
  frame σ0 σ → (length (pstore σ0) ≤ a)%nat →
  frame σ0 (set_pstore (<[a := P]> (pstore σ)) σ).
Proof.
  intros (Hh & Hl & Hp) Ha. split; [done|]. simpl.
  split; [by rewrite length_insert|].
  intros b P0 HP0. destruct (Hp b P0 HP0) as (P1 & HP1 & Hf).
  rewrite list_lookup_insert_ne; [by exists P1|].
  apply lookup_lt_Some in HP0. lia.
Qed.

Lemma frame_pstore_alloc σ0 σ P :
  frame σ0 σ → frame σ0 (set_pstore (pstore σ ++ [P]) σ).
Proof.
  intros (Hh & Hl & Hp). split; [done|]. simpl.
  split; [rewrite length_app; lia|].
  intros b P0 HP0. destruct (Hp b P0 HP0) as (P1 & HP1 & Hf).
  exists P1. split; [|done]. by apply lookup_app_l_Some.
Qed.

Lemma fresh_length σ0 σ :
  frame σ0 σ → fresh σ0 (Some (length (heap σ))).
Proof.
  intros (Hh & _) ? [= <-]. by apply prefix_length.
Qed.

(** Rules that hold from any state, whatever the pointers are: each
    says what the call may have done when it returns, and asks the frame
    of the panic it may end in.  A write goes through when its target
    is [fresh]. *)

Lemma any_field {A} (f : Params.t → A) σ0 p σ Q :
  frame σ0 σ →
  (∀ a P, p = Some a → pstore σ !! a = Some P → Q (f P) σ) →
  wpx (field p f) σ Q (keeps σ0).
Proof.
  intros Hf HQ. unfold keeps, wpx, field, load_Params, mbind, M_bind.
  destruct p as [a|]; [|done].
  destruct (pstore σ !! a) as [P|] eqn:HP; [|done]. by eapply HQ.
Qed.

Lemma any_index {A} (s : list A) i σ0 σ Q :
  frame σ0 σ → (∀ x, x ∈ s → Q x σ) → wpx (index s i) σ Q (keeps σ0).
Proof.
  intros Hf HQ. unfold keeps, wpx, index.
  destruct (decide _); [|done].
  destruct (s !! _) eqn:Hs; simpl; [|done].
  apply HQ. by eapply list_elem_of_lookup_2.
Qed.

Lemma any_index_set {A} (s : list A) i x σ0 σ Q :
  frame σ0 σ →
  (∀ s', length s' = length s → (∀ y, y ∈ s' → y ∈ s ∨ y = x) → Q s' σ) →
  wpx (index_set s i x) σ Q (keeps σ0).
Proof.
  intros Hf HQ. unfold keeps, wpx, index_set.
  destruct (decide _); [|done]. apply HQ; [by rewrite length_insert|].
  intros y Hy. apply list_elem_of_lookup in Hy as [j Hj].
  destruct (decide (Z.to_nat i = j)) as [<-|Hne].
  - rewrite list_lookup_insert_eq in Hj by (unfold len in *; lia).
    right. congruence.
  - rewrite list_lookup_insert_ne in Hj by done.
    left. by eapply list_elem_of_lookup_2.
Qed.

Lemma any_make n σ0 σ Q :
  frame σ0 σ →
  (∀ s, length s = Z.to_nat n → (∀ y, y ∈ s → y = None) → Q s σ) →
  wpx (make n) σ Q (keeps σ0).
Proof.
  intros Hf HQ. unfold keeps, wpx, make.
  destruct (decide _); [|done]. apply HQ; [by rewrite length_replicate|].
  intros y Hy. by apply elem_of_replicate in Hy as [-> _].
Qed.

Lemma any_new_cell σ0 σ Q :
  frame σ0 σ →
  (∀ e σ', frame σ0 σ' → fresh σ0 e → pstore σ' = pstore σ → Q e σ') →
  wpx new_cell σ Q (keeps σ0).
Proof.
  intros Hf HQ. apply wpx_new_cell. apply HQ; [by apply frame_alloc| |done].
  by apply fresh_length.
Qed.

Lemma any_load_cell p σ0 σ Q :
  frame σ0 σ → (∀ c, Q c σ) → wpx (load_cell p) σ Q (keeps σ0).
Proof.
  intros Hf HQ. unfold keeps, wpx, load_cell.
  destruct p as [a|]; [|done]. destruct (heap σ !! a); simpl; eauto.
Qed.

Lemma any_load_G1 p σ0 σ Q :
  frame σ0 σ → (∀ v, Q v σ) → wpx (load_G1 p) σ Q (keeps σ0).
Proof.
  intros Hf HQ. unfold load_G1.
  apply wpx_bind, any_load_cell; [done|].
  intros []; first [apply wpx_ret, HQ | apply wpx_panic; exact Hf].
Qed.

Lemma any_load_G2 p σ0 σ Q :
  frame σ0 σ → (∀ v, Q v σ) → wpx (load_G2 p) σ Q (keeps σ0).
Proof.
  intros Hf HQ. unfold load_G2.
  apply wpx_bind, any_load_cell; [done|].
  intros []; first [apply wpx_ret, HQ | apply wpx_panic; exact Hf].
Qed.

Lemma any_load_GT p σ0 σ Q :
  frame σ0 σ → (∀ v, Q v σ) → wpx (load_GT p) σ Q (keeps σ0).
Proof.
  intros Hf HQ. unfold load_GT.
  apply wpx_bind, any_load_cell; [done|].
  intros []; first [apply wpx_ret, HQ | apply wpx_panic; exact Hf].
Qed.

Lemma any_store_cell e c σ0 σ Q :
  frame σ0 σ → fresh σ0 e →
  (∀ σ', frame σ0 σ' → pstore σ' = pstore σ → Q () σ') →
  wpx (store_cell e c) σ Q (keeps σ0).
Proof.
  intros Hf He HQ. unfold keeps, wpx, store_cell.
  destruct e as [a|]; [|done].
  destruct (decide _); [|done]. apply HQ; [|done]. apply frame_write; [done|].
  by apply He.
Qed.

Lemma any_rand_Int max σ0 σ Q :
  frame σ0 σ →
  (∀ r σ', frame σ0 σ' → pstore σ' = pstore σ → heap σ' = heap σ → Q r σ') →
  wpx (rand_Int max) σ Q (keeps σ0).
Proof.
  intros Hf HQ. unfold keeps, wpx, rand_Int.
  destruct (rand σ) as [|[z|e] r]; apply HQ; try done; by apply frame_rand.
Qed.

Lemma any_G1_ScalarMult e a k σ0 σ Q :
  frame σ0 σ → fresh σ0 e →
  (∀ σ', frame σ0 σ' → pstore σ' = pstore σ → Q e σ') →
  wpx (G1_ScalarMult e a k) σ Q (keeps σ0).
Proof.
  intros Hf He HQ. unfold G1_ScalarMult.
  apply wpx_bind, any_load_G1; [done|]. intros va.
  apply wpx_bind, any_store_cell; [done|done|]. intros σ' Hf' Hps.
  by apply wpx_ret, HQ.
Qed.

Lemma any_G1_Add e a b σ0 σ Q :
  frame σ0 σ → fresh σ0 e →
  (∀ σ', frame σ0 σ' → pstore σ' = pstore σ → Q e σ') →
  wpx (G1_Add e a b) σ Q (keeps σ0).
Proof.
  intros Hf He HQ. unfold G1_Add.
  apply wpx_bind, any_load_G1; [done|]. intros va.
  apply wpx_bind, any_load_G1; [done|]. intros vb.
  apply wpx_bind, any_store_cell; [done|done|]. intros σ' Hf' Hps.
  by apply wpx_ret, HQ.
Qed.

Lemma any_G2_ScalarMult e a k σ0 σ Q :
  frame σ0 σ → fresh σ0 e →
  (∀ σ', frame σ0 σ' → pstore σ' = pstore σ → Q e σ') →
  wpx (G2_ScalarMult e a k) σ Q (keeps σ0).
Proof.
  intros Hf He HQ. unfold G2_ScalarMult.
  apply wpx_bind, any_load_G2; [done|]. intros va.
  apply wpx_bind, any_store_cell; [done|done|]. intros σ' Hf' Hps.
  by apply wpx_ret, HQ.
Qed.

Lemma any_G2_Add e a b σ0 σ Q :
  frame σ0 σ → fresh σ0 e →
  (∀ σ', frame σ0 σ' → pstore σ' = pstore σ → Q e σ') →
  wpx (G2_Add e a b) σ Q (keeps σ0).
Proof.
  intros Hf He HQ. unfold G2_Add.
  apply wpx_bind, any_load_G2; [done|]. intros va.
  apply wpx_bind, any_load_G2; [done|]. intros vb.
  apply wpx_bind, any_store_cell; [done|done|]. intros σ' Hf' Hps.
  by apply wpx_ret, HQ.
Qed.

Lemma any_GT_ScalarMult e a k σ0 σ Q :
  frame σ0 σ → fresh σ0 e →
  (∀ σ', frame σ0 σ' → pstore σ' = pstore σ → Q e σ') →
  wpx (GT_ScalarMult e a k) σ Q (keeps σ0).
Proof.
  intros Hf He HQ. unfold GT_ScalarMult.
  apply wpx_bind, any_load_GT; [done|]. intros va.
  apply wpx_bind, any_store_cell; [done|done|]. intros σ' Hf' Hps.
  by apply wpx_ret, HQ.
Qed.

Lemma any_GT_Add e a b σ0 σ Q :
  frame σ0 σ → fresh σ0 e →
  (∀ σ', frame σ0 σ' → pstore σ' = pstore σ → Q e σ') →
  wpx (GT_Add e a b) σ Q (keeps σ0).
Proof.
  intros Hf He HQ. unfold GT_Add.
  apply wpx_bind, any_load_GT; [done|]. intros va.
  apply wpx_bind, any_load_GT; [done|]. intros vb.
  apply wpx_bind, any_store_cell; [done|done|]. intros σ' Hf' Hps.
  by apply wpx_ret, HQ.
Qed.

Lemma any_GT_Neg e a σ0 σ Q :
  frame σ0 σ → fresh σ0 e →
  (∀ σ', frame σ0 σ' → pstore σ' = pstore σ → Q e σ') →
  wpx (GT_Neg e a) σ Q (keeps σ0).
Proof.
  intros Hf He HQ. unfold GT_Neg.
  apply wpx_bind, any_load_GT; [done|]. intros va.
  apply wpx_bind, any_store_cell; [done|done|]. intros σ' Hf' Hps.
  by apply wpx_ret, HQ.
Qed.

Lemma any_Pair a b σ0 σ Q :
  frame σ0 σ →
  (∀ e σ', frame σ0 σ' → fresh σ0 e → pstore σ' = pstore σ → Q e σ') →
  wpx (Pair a b) σ Q (keeps σ0).
Proof.
  intros Hf HQ. unfold Pair.
  apply wpx_bind, any_load_G1; [done|]. intros va.
  apply wpx_bind, any_load_G2; [done|]. intros vb.
  apply wpx_bind, any_new_cell; [done|]. intros e σ1 Hf1 He Hps1.
  apply wpx_bind, any_store_cell; [done|done|]. intros σ2 Hf2 Hps2.
  apply wpx_ret, HQ; [done|done|congruence].
Qed.

Lemma any_deepClone g σ0 σ Q :
  frame σ0 σ →
  (∀ e σ', frame σ0 σ' → fresh σ0 e → pstore σ' = pstore σ → Q e σ') →
  wpx (deepClone g) σ Q (keeps σ0).
Proof.
  intros Hf HQ. unfold deepClone.
  apply wpx_bind, any_load_G1; [done|]. intros va.
  apply wpx_bind, any_new_cell; [done|]. intros e σ1 Hf1 He Hps1.
  apply wpx_bind, any_store_cell; [done|done|]. intros σ2 Hf2 Hps2.
  apply wpx_ret, HQ; [done|done|congruence].
Qed.

Lemma any_RandomG1 σ0 σ Q :
  frame σ0 σ →
  (∀ r σ', frame σ0 σ' → pstore σ' = pstore σ →
     (∀ k e, r = Ok (k, e) → fresh σ0 e) → Q r σ') →
  wpx RandomG1 σ Q (keeps σ0).
Proof.
  intros Hf HQ. unfold RandomG1.
  apply wpx_bind, any_rand_Int; [done|]. intros [k|err] σ1 Hf1 Hps1 _.
  - apply wpx_bind, any_new_cell; [done|]. intros e σ2 Hf2 He Hps2.
    apply wpx_bind, any_store_cell; [done|done|]. intros σ3 Hf3 Hps3.
    apply wpx_ret, HQ; [done|congruence|]. by intros ? ? [= _ <-].
  - by apply wpx_ret, HQ.
Qed.

Lemma any_RandomG2 σ0 σ Q :
  frame σ0 σ →
  (∀ r σ', frame σ0 σ' → pstore σ' = pstore σ →
     (∀ k e, r = Ok (k, e) → fresh σ0 e) → Q r σ') →
  wpx RandomG2 σ Q (keeps σ0).
Proof.
  intros Hf HQ. unfold RandomG2.
  apply wpx_bind, any_rand_Int; [done|]. intros [k|err] σ1 Hf1 Hps1 _.
  - apply wpx_bind, any_new_cell; [done|]. intros e σ2 Hf2 He Hps2.
    apply wpx_bind, any_store_cell; [done|done|]. intros σ3 Hf3 Hps3.
    apply wpx_ret, HQ; [done|congruence|]. by intros ? ? [= _ <-].
  - by apply wpx_ret, HQ.
Qed.

Lemma any_for_loop {A} σ0 (I : A → State → Prop) (body : Z → A → M A) n :
  (∀ i a σ, frame σ0 σ → I a σ →
     wpx (body i a) σ (λ a' σ', frame σ0 σ' ∧ I a' σ') (keeps σ0)) →
  ∀ i a σ, frame σ0 σ → I a σ →
    wpx (for_loop n i body a) σ (λ a' σ', frame σ0 σ' ∧ I a' σ') (keeps σ0).
Proof.
  intros Hbody. induction n as [|n IH]; intros i a σ Hf HI.
  - by apply wpx_ret.
  - simpl. apply wpx_bind.
    eapply wpx_mono; [by apply Hbody| |done].
    intros a' σ' [Hf' HI']. by apply IH.
Qed.

End Rules.

(** One step of a call from any state: the rule of the call at the
    head, with the frame and the freshness taken from the context. *)
Ltac arule :=
  first
    [ eapply any_field; [eassumption|]
    | eapply any_index; [eassumption|]
    | eapply any_index_set; [eassumption|]
    | eapply any_make; [eassumption|]
    | eapply any_new_cell; [eassumption|]
    | eapply any_rand_Int; [eassumption|]
    | eapply any_deepClone; [eassumption|]
    | eapply any_Pair; [eassumption|]
    | eapply any_RandomG1; [eassumption|]
    | eapply any_RandomG2; [eassumption|]
    | eapply any_G1_ScalarMult; [eassumption|eassumption|]
    | eapply any_G1_Add; [eassumption|eassumption|]
    | eapply any_G2_ScalarMult; [eassumption|eassumption|]
    | eapply any_G2_Add; [eassumption|eassumption|]
    | eapply any_GT_ScalarMult; [eassumption|eassumption|]
    | eapply any_GT_Add; [eassumption|eassumption|]
    | eapply any_GT_Neg; [eassumption|eassumption|] ].

Ltac astep := apply wpx_bind; arule; intros.

(** ** The calls of core.go *)

Section Calls.
Context `{!bn256.Groups}.
Implicit Types (σ : State) (h : list cell) (p : ptr).

(** *** Every run of each call

    Whatever the arguments and the state, and however the call ends:
    the state it leaves respects [frame], a key it returns has a [B] of
    the right length, and an error comes with nil results. *)

Lemma any_accumulate params (id : list Z) acc σ0 σ Q :
  frame σ0 σ → fresh σ0 acc →
  (∀ σ', frame σ0 σ' → pstore σ' = pstore σ → Q () σ') →
  wpx (accumulate params id acc) σ Q (keeps σ0).
Proof.
  intros Hf Hacc HQ. unfold accumulate.
  eapply wpx_mono;
    [apply (any_for_loop σ0 (λ _ σ', pstore σ' = pstore σ)); [|done|done]| |done].
  - intros i [] τ Hτ Hpτ. unfold accumulate_body.
    do 6 astep. apply wpx_ret. split; [done|congruence].
  - intros [] τ [Hτ Hpτ]. by apply HQ.
Qed.

(** [KeyGenFromMaster], any run. *)
Lemma KeyGenFromMaster_any params master (id : list Z) σ :
  wpx (KeyGenFromMaster params master id) σ
    (λ res σ', frame σ σ' ∧ pstore σ' = pstore σ ∧
       ((∃ key, res = (Some key, None) ∧
           ∀ a P, params = Some a → pstore σ !! a = Some P →
             len (PrivateKey.B key) = len (Params.H P) - len id) ∨
        (∃ e, res = (None, Some e) ∧ heap σ' = heap σ)))
    (keeps σ).
Proof.
  pose proof (frame_refl σ) as Hf.
  unfold KeyGenFromMaster.
  apply wpx_bind. eapply any_field; [done|]. intros a P -> HP.
  destruct (decide _) as [Hlt|Hge]; [by apply wpx_panic|].
  apply wpx_bind. eapply any_rand_Int; [done|].
  intros [r|e] σ1 Hf1 Hps1 Hh1.
  2:{ apply wpx_ret. split; [done|]. split; [done|]. right. by exists e. }
  do 2 astep.
  apply wpx_bind. eapply any_accumulate; [eassumption|eassumption|]. intros.
  do 7 astep.
  apply wpx_bind.
  eapply wpx_mono;
    [apply (any_for_loop σ (λ B σ', length B = Z.to_nat (len (Params.H P) - len id)
                                     ∧ pstore σ' = pstore σ));
       [|eassumption|split; [done|congruence]]| |done].
  - intros i B τ Hτ [HB Hpτ]. do 4 astep.
    eapply any_index_set; [eassumption|]. intros.
    split; [done|]. split; congruence.
  - intros B τ (Hτ & HB & Hpτ). apply wpx_ret.
    split; [done|]. split; [done|]. left. eexists. split; [done|].
    intros b Pb [= <-] HPb. simpl.
    assert (Pb = P) as -> by congruence.
    unfold len in *. rewrite HB. lia.
Qed.

Lemma fresh_nil σ0 : fresh σ0 None.
Proof. by intros ? [=]. Qed.

(** [KeyGenFromParent], any run: the elements its loop writes in place
    are those it has just put in [key.B]. *)
Lemma KeyGenFromParent_any params parent (id : list Z) σ :
  wpx (KeyGenFromParent params parent id) σ
    (λ res σ', frame σ σ' ∧ pstore σ' = pstore σ ∧
       ((∃ key, res = (Some key, None) ∧
           ∀ a P, params = Some a → pstore σ !! a = Some P →
             len (PrivateKey.B key) = len (Params.H P) - len id) ∨
        (∃ e, res = (None, Some e) ∧ heap σ' = heap σ)))
    (keeps σ).
Proof.
  pose proof (frame_refl σ) as Hf.
  unfold KeyGenFromParent.
  apply wpx_bind. eapply any_field; [done|]. intros a P -> HP.
  destruct (decide _) as [Hlt|Hge]; [by apply wpx_panic|].
  destruct (decide _) as [Hne|Heq]; [by apply wpx_panic|].
  apply wpx_bind. eapply any_rand_Int; [done|].
  intros [t|e] σ1 Hf1 Hps1 Hh1.
  2:{ apply wpx_ret. split; [done|]. split; [done|]. right. by exists e. }
  do 2 astep.
  apply wpx_bind. eapply any_accumulate; [eassumption|eassumption|]. intros.
  do 13 astep.
  apply wpx_bind.
  eapply wpx_mono;
    [apply (any_for_loop σ (λ B σ', length B = Z.to_nat (len (Params.H P) - len id)
                                     ∧ (∀ y, y ∈ B → fresh σ y)
                                     ∧ pstore σ' = pstore σ));
       [|eassumption|split; [done|split; [|congruence]]]| |done].
  - intros i B τ Hτ (HB & HBf & Hpτ). do 5 astep.
    apply wpx_bind. eapply any_index; [eassumption|]. intros bj Hbj.
    assert (Hbjf : fresh σ bj).
    { match goal with Hs : ∀ y, y ∈ _ → y ∈ B ∨ y = _ |- _ =>
        destruct (Hs bj Hbj) as [?| ->]; [by apply HBf|done] end. }
    do 2 astep. apply wpx_ret.
    split; [done|]. split; [congruence|]. split; [|congruence].
    intros y Hy.
    match goal with Hs : ∀ y, y ∈ _ → y ∈ B ∨ y = _ |- _ =>
      destruct (Hs y Hy) as [?| ->]; [by apply HBf|done] end.
  - intros y Hy.
    match goal with Hs : ∀ y, y ∈ _ → y = None |- _ => rewrite (Hs y Hy) end.
    apply fresh_nil.
  - intros B τ (Hτ & HB & _ & Hpτ). apply wpx_ret.
    split; [done|]. split; [done|]. left. eexists. split; [done|].
    intros b Pb [= <-] HPb. simpl.
    assert (Pb = P) as -> by congruence.
    unfold len in *. rewrite HB. lia.
Qed.

(** [Decrypt], any run. *)
Lemma Decrypt_any key ct σ :
  wpx (Decrypt key ct) σ
    (λ _ σ', frame σ σ' ∧ pstore σ' = pstore σ)
    (keeps σ).
Proof.
  pose proof (frame_refl σ) as Hf.
  unfold Decrypt.
  do 6 astep. apply wpx_ret. split; [done|congruence].
Qed.

Lemma any_update_cache σ0 σ a P v Q :
  frame σ0 σ → pstore σ !! a = Some P → Params.Pairing P = None →
  (∀ σ', frame σ0 σ' → Q () σ') →
  wpx (update_Params (Some a) (Params.set_Pairing v)) σ Q (keeps σ0).
Proof.
  intros Hf HP Hnone HQ. unfold wpx, update_Params. rewrite HP.
  apply HQ. by apply frame_cache.
Qed.


(** [Encrypt], any run: an error is returned before anything is
    written. *)
Lemma Encrypt_any params (id : list Z) message σ :
  wpx (Encrypt params id message) σ
    (λ res σ', frame σ σ' ∧
       ((∃ ct, res = (Some ct, None)) ∨
        (∃ e, res = (None, Some e) ∧ heap σ' = heap σ ∧ pstore σ' = pstore σ)))
    (keeps σ).
Proof.
  pose proof (frame_refl σ) as Hf.
  unfold Encrypt.
  apply wpx_bind. eapply any_rand_Int; [done|].
  intros [s|e] σ1 Hf1 Hps1 Hh1.
  2:{ apply wpx_ret. split; [done|]. right. by exists e. }
  apply wpx_bind. eapply any_field; [done|]. intros a P -> HP.
  apply wpx_bind.
  apply (wpx_mono _ _ (λ _ σ', frame σ σ') _ (keeps σ) _).
  { destruct (Params.Pairing P) as [c|] eqn:Hc; [by apply wpx_ret|].
    do 3 astep.
    eapply any_update_cache; [eassumption| |exact Hc|done].
    congruence. }
  2:{ done. }
  intros [] σ2 Hf2.
  do 9 astep.
  apply wpx_bind. eapply any_accumulate; [eassumption|eassumption|]. intros.
  astep. apply wpx_ret. split; [done|]. left. by eexists.
Qed.

Lemma any_new_Params σ0 σ Q :
  frame σ0 σ →
  (∀ σ', frame σ0 σ' → pstore σ' = pstore σ ++ [Params.zero] →
     Q (Some (length (pstore σ))) σ') →
  wpx new_Params σ Q (keeps σ0).
Proof.
  intros Hf HQ. unfold wpx, new_Params. apply HQ; [|done].
  by apply frame_pstore_alloc.
Qed.

(** An update of the last [Params], made after [σ0]. *)
Lemma any_update_new σ0 σ ps P f Q :
  frame σ0 σ → (length (pstore σ0) ≤ length ps)%nat → pstore σ = ps ++ [P] →
  (∀ σ', frame σ0 σ' → pstore σ' = ps ++ [f P] → Q () σ') →
  wpx (update_Params (Some (length ps)) f) σ Q (keeps σ0).
Proof.
  intros Hf Ha HP HQ. unfold wpx, update_Params.
  rewrite HP, list_lookup_middle by done.
  apply HQ; [|simpl; by rewrite insert_snoc].
  rewrite <- HP. by apply frame_pstore_new.
Qed.

Lemma Setup_fill_H_any σ0 ps n :
  ∀ i σ P,
  frame σ0 σ → (length (pstore σ0) ≤ length ps)%nat →
  pstore σ = ps ++ [P] → Params.Pairing P = None →
  wpx (Setup_fill_H n i (Some (length ps))) σ
    (λ _ σ', frame σ0 σ' ∧ ∃ P', pstore σ' = ps ++ [P'] ∧ Params.Pairing P' = None)
    (keeps σ0).
Proof.
  induction n as [|n IH]; intros i σ P Hf Ha HP Hc.
  - apply wpx_ret. split; [done|]. by exists P.
  - simpl Setup_fill_H.
    apply wpx_bind. eapply any_RandomG1; [done|]. intros r σ1 Hf1 Hps1 _.
    rewrite HP in Hps1.
    apply wpx_bind. eapply any_field; [done|]. intros ? P1 [= <-] HP1.
    rewrite Hps1, list_lookup_middle in HP1 by done. injection HP1 as <-.
    destruct r as [[k hp]|e].
    + astep. apply wpx_bind. eapply any_update_new; [done|done|done|].
      intros σ2 Hf2 HP2. by eapply IH.
    + astep. apply wpx_bind. eapply any_update_new; [done|done|done|].
      intros σ2 Hf2 HP2. apply wpx_ret. split; [done|]. by eexists.
Qed.

(** [Setup], any run that returns: the [Params] that existed are as they
    were, one [Params] is new and its cache slot is nil; the call
    returns a pointer to it, or an error and nil. *)
Lemma Setup_any (l : Z) σ :
  wpx (Setup l) σ
    (λ res σ', frame σ σ' ∧
       ∃ P, pstore σ' = pstore σ ++ [P] ∧ Params.Pairing P = None ∧
         ((∃ master, res = (Some (length (pstore σ)), master, None)) ∨
          (∃ e, res = (None, None, Some e))))
    (keeps σ).
Proof.
  pose proof (frame_refl σ) as Hf.
  assert (Ha : (length (pstore σ) ≤ length (pstore σ))%nat) by done.
  unfold Setup.
  apply wpx_bind. eapply any_new_Params; [done|]. intros σ1 Hf1 HP1.
  apply wpx_bind. eapply any_RandomG2; [done|]. intros r σ2 Hf2 Hps2 _.
  rewrite HP1 in Hps2.
  destruct r as [[k g]|err].
  2:{ apply wpx_bind. eapply any_update_new; [done|done|done|]. intros.
      apply wpx_ret. split; [done|]. eexists. split; [done|].
      split; [done|]. right. by exists err. }
  apply wpx_bind. eapply any_update_new; [done|done|done|]. intros σ3 Hf3 HP3.
  apply wpx_bind. eapply any_rand_Int; [done|]. intros [α|err] σ4 Hf4 Hps4 _.
  2:{ apply wpx_ret. split; [done|]. eexists. split; [by rewrite Hps4|].
      split; [done|]. right. by exists err. }
  do 3 astep.
  match goal with |- wpx _ ?τ _ _ =>
    assert (HP5 : pstore τ = pstore σ ++ [Params.set_G g Params.zero]) by congruence end.
  apply wpx_bind. eapply any_update_new; [eassumption|done|done|]. intros σ6 Hf6 HP6.
  apply wpx_bind. eapply any_RandomG1; [done|]. intros r σ7 Hf7 Hps7 _.
  rewrite HP6 in Hps7.
  destruct r as [[k2 g2]|err].
  2:{ apply wpx_bind. eapply any_update_new; [done|done|done|]. intros.
      apply wpx_ret. split; [done|]. eexists. split; [done|].
      split; [done|]. right. by exists err. }
  apply wpx_bind. eapply any_update_new; [done|done|done|]. intros σ8 Hf8 HP8.
  apply wpx_bind. eapply any_RandomG1; [done|]. intros r σ9 Hf9 Hps9 _.
  rewrite HP8 in Hps9.
  destruct r as [[k3 g3]|err].
  2:{ apply wpx_bind. eapply any_update_new; [done|done|done|]. intros.
      apply wpx_ret. split; [done|]. eexists. split; [done|].
      split; [done|]. right. by exists err. }
  apply wpx_bind. eapply any_update_new; [done|done|done|]. intros σ10 Hf10 HP10.
  astep.
  apply wpx_bind. eapply any_update_new; [done|done|done|]. intros σ11 Hf11 HP11.
  astep.
  apply wpx_bind.
  eapply wpx_mono; [eapply (Setup_fill_H_any σ (pstore σ)); [done|done|done|done]| |done].
  intros [err|] σ12 (Hf12 & P12 & HP12 & Hc12).
  { apply wpx_ret. split; [done|]. exists P12. split; [done|].
    split; [done|]. right. by exists err. }
  do 3 astep.
  apply wpx_ret. split; [done|]. exists P12.
  split; [congruence|]. split; [done|]. left. by eexists.
Qed.

(** *** A random source that fails *)









(** *** Past the maximum depth *)

Lemma wpx_for_loop_split {A} (body : Z → A → M A) n1 n2 Q E :
  ∀ i a σ,
  wpx (for_loop n1 i body a) σ
      (λ a' σ', wpx (for_loop n2 (i + Z.of_nat n1) body a') σ' Q E) E →
  wpx (for_loop (n1 + n2) i body a) σ Q E.
Proof.
  induction n1 as [|n1 IH]; intros i a σ Hwp.
  - simpl in *. unfold wpx in Hwp at 1. simpl in Hwp. by rewrite Z.add_0_r in Hwp.
  - simpl in *. apply wpx_bind.
    unfold wpx at 1. unfold wpx at 1 in Hwp. unfold mbind, M_bind in Hwp.
    destruct (body i a σ) as [a' σ'|msg σ']; [|done].
    apply IH. eapply wpx_mono; [exact Hwp| |done].
    intros a'' σ'' Hw. simpl in Hw.
    by replace (i + 1 + Z.of_nat n1) with (i + Z.pos (Pos.of_succ_nat n1)) by lia.
Qed.

Lemma wpx_index_oob {A} (s : list A) (i : nat) σ Q (E : string → State → Prop) :
  s !! i = None → E panic_index σ → wpx (index s (Z.of_nat i)) σ Q E.
Proof.
  intros Hs HE. unfold wpx, index.
  destruct (decide _) as [_|]; [|lia].
  by rewrite Nat2Z.id, Hs.
Qed.


(** *** The properties of the specification *)

Lemma wpx_final {A} (m : M A) σ (R : State → Prop) :
  wpx m σ (λ _ σ', R σ') (λ _ σ', R σ') → R (final (m σ)).
Proof. unfold wpx, final. by destruct (m σ). Qed.

Lemma frame_unchanged σ σ' : frame σ σ' → unchanged σ σ'.
Proof.
  intros (Hh & _ & Hp). split.
  - intros p c. by apply holds_prefix.
  - intros a P HP. destruct (Hp a P HP) as (P' & HP' & E1 & E2 & E3 & E4 & E5 & _).
    by exists P'.
Qed.


Lemma KeyGenFromMaster_frame params master (id : list Z) σ :
  frame σ (final (KeyGenFromMaster params master id σ)).
Proof.
  apply (wpx_final _ _ (frame σ)).
  eapply wpx_mono; [apply KeyGenFromMaster_any| |done].
  by intros ? ? [? _].
Qed.

Lemma KeyGenFromParent_frame params parent (id : list Z) σ :
  frame σ (final (KeyGenFromParent params parent id σ)).
Proof.
  apply (wpx_final _ _ (frame σ)).
  eapply wpx_mono; [apply KeyGenFromParent_any| |done].
  by intros ? ? [? _].
Qed.

Lemma Encrypt_frame params (id : list Z) message σ :
  frame σ (final (Encrypt params id message σ)).
Proof.
  apply (wpx_final _ _ (frame σ)).
  eapply wpx_mono; [apply Encrypt_any| |done].
  by intros ? ? [? _].
Qed.

Lemma Decrypt_frame key ct σ : frame σ (final (Decrypt key ct σ)).
Proof.
  apply (wpx_final _ _ (frame σ)).
  eapply wpx_mono; [apply Decrypt_any| |done].
  by intros ? ? [? _].
Qed.


Lemma Setup_frame l σ : frame σ (final (Setup l σ)).
Proof.
  apply (wpx_final _ _ (frame σ)).
  eapply wpx_mono; [apply Setup_any| |done].
  by intros ? ? [? _].
Qed.




(** C2: delegation equivalence.  For every path [id] with
    [len(id) <= l]: the key derived by [KeyGenFromMaster] for the empty
    path followed by one [KeyGenFromParent] per segment, and the key
    derived in one step by [KeyGenFromMaster] for [id], decrypt any
    ciphertext that [Encrypt] makes for [id] to elements of the same
    value. *)
Theorem C2_delegation_equivalence σ params P V master mv message
    (m : bn256.GT) (id : list Z) (zs : list Z) zd ze rest :
  params_at σ params P V →
  holds (heap σ) master (InG1 mv) →
  holds (heap σ) message (InGT m) →
  len id ≤ len (Params.H P) →
  rand σ = (Scalar <$> zs) ++ Scalar zd :: Scalar ze :: rest →
  length zs = S (length id) →
  ∃ key_chain key_direct ct p_chain p_direct σ1 σ2 σ3 σ4 σ5 v,
    KeyGenDelegated params master id σ = Done (Some key_chain, None) σ1 ∧
    KeyGenFromMaster params master id σ1 = Done (Some key_direct, None) σ2 ∧
    Encrypt params id message σ2 = Done (Some ct, None) σ3 ∧
    Decrypt key_chain ct σ3 = Done p_chain σ4 ∧
    Decrypt key_direct ct σ4 = Done p_direct σ5 ∧
    holds (heap σ5) p_chain (InGT v) ∧
    holds (heap σ5) p_direct (InGT v).
Proof.
  intros Hat Hmv Hm Hid Hrand Hzs.
  assert (Hid' : (length id ≤ length (Params.H P))%nat) by (unfold len in Hid; lia).
  destruct (KeyGenDelegated_spec σ params P V master mv id zs _ Hat Hmv Hid' Hrand Hzs)
    as (kc & σ1 & R & Hrun1 & Hpre1 & Hps1 & Hr1 & Hkc).
  pose proof (params_at_keep _ _ _ _ _ Hat Hpre1 Hps1) as Hat1.
  assert (Hmv1 : holds (heap σ1) master (InG1 mv)) by (by eapply holds_prefix).
  pose proof (KeyGenFromMaster_spec σ1 params P V master mv id zd _ Hat1 Hmv1 Hid' Hr1) as Hwp.
  apply wp_done in Hwp as (? & σ2 & Hrun2 & kd & -> & Hpre2 & Hps2 & Hr2 & Hkd).
  pose proof (params_at_keep _ _ _ _ _ Hat1 Hpre2 Hps2) as Hat2.
  assert (Hm2 : holds (heap σ2) message (InGT m)).
  { eapply holds_prefix; [|exact Hm]. by etrans. }
  pose proof (Encrypt_spec σ2 params P V message m id ze _ Hat2 Hm2 Hid' Hr2) as Hwp.
  apply wp_done in Hwp
    as (? & σ3 & Hrun3 & ct & P' & -> & Hpre3 & Hr3 & Hat3 & Hfr3 & Hc3 & Hct).
  assert (Hkc3 : key_at (heap σ3) V mv id R kc).
  { eapply key_at_prefix; [|exact Hkc]. by etrans. }
  destruct (Decrypt_key_ct σ3 V mv id R _ m kc ct Hkc3 Hct)
    as (p1 & σ4 & Hrun4 & Hpre4 & Hps4 & Hr4 & Hv1).
  assert (Hkd4 : key_at (heap σ4) V mv id (zd mod bn256.Order) kd).
  { eapply key_at_prefix; [|exact Hkd]. by etrans. }
  pose proof (ct_at_prefix _ _ _ _ _ _ _ Hpre4 Hct) as Hct4.
  destruct (Decrypt_key_ct σ4 V mv id _ _ m kd ct Hkd4 Hct4)
    as (p2 & σ5 & Hrun5 & Hpre5 & Hps5 & Hr5 & Hv2).
  exists kc, kd, ct, p1, p2, σ1, σ2, σ3, σ4, σ5. eexists.
  repeat (split; [done|]). split; [|exact Hv2].
  by eapply holds_prefix.
Qed.

Lemma run_field {A B} (f : Params.t → A) (k : A → M B) a P σ :
  pstore σ !! a = Some P →
  (field (Some a) f ≫= k) σ = k (f P) σ.
Proof.
  intros HP. unfold mbind, M_bind, field, load_Params, mbind, M_bind. by rewrite HP.
Qed.

(** C3, amended: depth exceeded.  For both [KeyGenFromMaster] and
    [KeyGenFromParent], whenever [k = len(id)] exceeds
    [l = len(params.H)] the call panics with its text "Cannot generate
    key at greater than maximum depth": it is an abrupt termination, not
    an error value handed to the caller; no key is returned, the path is
    not truncated, and the state is as it was (nothing is read from the
    random source). *)
Theorem C3_depth_exceeded_panics σ a P master parent (id : list Z) :
  pstore σ !! a = Some P →
  len (Params.H P) < len id →
  KeyGenFromMaster (Some a) master id σ = Panics panic_depth_master σ ∧
  KeyGenFromParent (Some a) parent id σ = Panics panic_depth_parent σ.
Proof.
  intros HP Hlt. split.
  - unfold KeyGenFromMaster. rewrite (run_field _ _ _ _ _ HP).
    by rewrite decide_True.
  - unfold KeyGenFromParent. rewrite (run_field _ _ _ _ _ HP).
    by rewrite decide_True.
Qed.

(** C4, amended: parent mismatch.  For every call of [KeyGenFromParent]
    with [k = len(id) <= l = len(params.H)], if the parent key has
    [DepthLeft() != l - k + 1] the call panics with the text "Trying to
    generate key at depth that is not the child of the provided parent":
    no key is returned and the state is as it was.  (For [k > l] the
    depth check comes first and the panic is the one of the depth.) *)
Theorem C4_parent_mismatch_panics σ a P parent (id : list Z) :
  pstore σ !! a = Some P →
  len id ≤ len (Params.H P) →
  DepthLeft parent ≠ len (Params.H P) - len id + 1 →
  KeyGenFromParent (Some a) parent id σ = Panics panic_parent_mismatch σ.
Proof.
  intros HP Hle Hne.
  unfold KeyGenFromParent. rewrite (run_field _ _ _ _ _ HP).
  rewrite decide_False by lia. by rewrite decide_True.
Qed.

(** C5: the delegation vector.  Every private key that
    [KeyGenFromMaster] or [KeyGenFromParent] returns for an identity of
    depth [k = len(id)] under params of maximum depth [l = len(params.H)]
    has a [B] of length exactly [l - k], and [DepthLeft()] is [len(B)]. *)
Theorem C5_delegation_vector_length σ a P master parent (id : list Z) key err σ' :
  pstore σ !! a = Some P →
  KeyGenFromMaster (Some a) master id σ = Done (Some key, err) σ' ∨
  KeyGenFromParent (Some a) parent id σ = Done (Some key, err) σ' →
  len (PrivateKey.B key) = len (Params.H P) - len id ∧
  DepthLeft key = len (PrivateKey.B key).
Proof.
  intros HP Hrun. split; [|done].
  destruct Hrun as [Hrun|Hrun].
  - pose proof (KeyGenFromMaster_any (Some a) master id σ) as Hany.
    unfold wpx in Hany. rewrite Hrun in Hany.
    destruct Hany as (_ & _ & [(key' & [= <- _] & Hlen)|(e & [=] & _)]).
    by eapply Hlen.
  - pose proof (KeyGenFromParent_any (Some a) parent id σ) as Hany.
    unfold wpx in Hany. rewrite Hrun in Hany.
    destruct Hany as (_ & _ & [(key' & [= <- _] & Hlen)|(e & [=] & _)]).
    by eapply Hlen.
Qed.



(** C8: no call mutates what it did not create.  After any call of
    [KeyGenFromMaster], [KeyGenFromParent], [Encrypt] or [Decrypt], on
    any arguments and however the call ends, every pointer that held a
    value holds the same value (so the elements behind [G], [G1], [G2],
    [G3] and every [H[i]] of the params, and behind [A0], [A1] and every
    [B[j]] of a parent key), and every [Params] has the same [G], [G1],
    [G2], [G3] and [H]: only a cache slot can differ. *)
Theorem C8_no_mutation_of_inputs σ params master parent key ct message (id : list Z) :
  unchanged σ (final (KeyGenFromMaster params master id σ)) ∧
  unchanged σ (final (KeyGenFromParent params parent id σ)) ∧
  unchanged σ (final (Encrypt params id message σ)) ∧
  unchanged σ (final (Decrypt key ct σ)).
Proof.
  split; [|split; [|split]]; apply frame_unchanged.
  - apply KeyGenFromMaster_frame.
  - apply KeyGenFromParent_frame.
  - apply Encrypt_frame.
  - apply Decrypt_frame.
Qed.


End Calls.

(** ** What a call leaves untouched

    A component of the state that no primitive step of a call writes is
    the same after the call, however it ends.  The rules are stated for
    any projection [f] of the state; they are used for the [Params]
    store and for the random source. *)

Section Untouched.
Context `{!bn256.Groups}.
Context {X : Type} (f : State → X).
Implicit Types (σ : State) (p : ptr).

Lemma final_bind {A B} (m : M A) (k : A → M B) σ :
  final ((m ≫= k) σ) = match m σ with
                        | Done a σ' => final (k a σ')
                        | Panics _ σ' => σ'
                        end.
Proof. unfold mbind, M_bind. by destruct (m σ). Qed.

Lemma untouched_ret {A} (a : A) : untouched f (mret a).
Proof. done. Qed.

Lemma untouched_panic {A} msg : untouched f (panic (A := A) msg).
Proof. done. Qed.

Lemma untouched_bind {A B} (m : M A) (k : A → M B) :
  untouched f m → (∀ a, untouched f (k a)) → untouched f (m ≫= k).
Proof.
  intros Hm Hk σ. rewrite final_bind. specialize (Hm σ).
  destruct (m σ) as [a σ'|msg σ']; simpl in Hm; [|done].
  by rewrite Hk.
Qed.

Lemma untouched_index {A} (s : list A) i : untouched f (index s i).
Proof. intros σ. unfold index. by repeat case_match. Qed.

Lemma untouched_index_set {A} (s : list A) i x : untouched f (index_set s i x).
Proof. intros σ. unfold index_set. by destruct (decide _). Qed.

Lemma untouched_make n : untouched f (make n).
Proof. intros σ. unfold make. by destruct (decide _). Qed.

Lemma untouched_field {A} p (g : Params.t → A) : untouched f (field p g).
Proof.
  intros σ. unfold field, load_Params, mbind, M_bind.
  destruct p as [a|]; [|done]. by destruct (pstore σ !! a).
Qed.

Lemma untouched_for_loop {A} (body : Z → A → M A) n :
  (∀ i a, untouched f (body i a)) → ∀ i a, untouched f (for_loop n i body a).
Proof.
  intros Hb. induction n as [|n IH]; intros i a; simpl.
  - apply untouched_ret.
  - apply untouched_bind; [apply Hb|]. intros a'. apply IH.
Qed.

Lemma untouched_load_cell p : untouched f (load_cell p).
Proof. intros σ. unfold load_cell. by repeat case_match. Qed.

Lemma untouched_load_G1 p : untouched f (load_G1 p).
Proof.
  apply untouched_bind; [apply untouched_load_cell|].
  intros []; first [apply untouched_ret|apply untouched_panic].
Qed.

Lemma untouched_load_G2 p : untouched f (load_G2 p).
Proof.
  apply untouched_bind; [apply untouched_load_cell|].
  intros []; first [apply untouched_ret|apply untouched_panic].
Qed.

Lemma untouched_load_GT p : untouched f (load_GT p).
Proof.
  apply untouched_bind; [apply untouched_load_cell|].
  intros []; first [apply untouched_ret|apply untouched_panic].
Qed.

(** The steps that write one component are untouched for a projection
    that does not look at it. *)

Lemma untouched_store_cell p c :
  (∀ h σ, f (set_heap h σ) = f σ) → untouched f (store_cell p c).
Proof.
  intros Hf σ. unfold store_cell. repeat case_match; simpl; by rewrite ?Hf.
Qed.

Lemma untouched_new_cell :
  (∀ h σ, f (set_heap h σ) = f σ) → untouched f new_cell.
Proof. intros Hf σ. unfold new_cell. simpl. by rewrite Hf. Qed.

Lemma untouched_update_Params p g :
  (∀ ps σ, f (set_pstore ps σ) = f σ) → untouched f (update_Params p g).
Proof.
  intros Hf σ. unfold update_Params.
  destruct p as [a|]; [|done]. destruct (pstore σ !! a); simpl; [|done].
  by rewrite Hf.
Qed.

Lemma untouched_new_Params :
  (∀ ps σ, f (set_pstore ps σ) = f σ) → untouched f new_Params.
Proof. intros Hf σ. unfold new_Params. simpl. by rewrite Hf. Qed.

Lemma untouched_rand_Int max :
  (∀ r σ, f (set_rand r σ) = f σ) → untouched f (rand_Int max).
Proof.
  intros Hf σ. unfold rand_Int.
  destruct (rand σ) as [|[z|e] r]; simpl; by rewrite ?Hf.
Qed.

End Untouched.

Ltac untouched_step :=
  first
    [ apply untouched_ret
    | apply untouched_panic
    | apply untouched_index
    | apply untouched_index_set
    | apply untouched_make
    | apply untouched_field
    | apply untouched_load_G1
    | apply untouched_load_G2
    | apply untouched_load_GT
    | apply untouched_store_cell; assumption
    | apply untouched_new_cell; assumption
    | apply untouched_update_Params; assumption
    | apply untouched_new_Params; assumption
    | apply untouched_rand_Int; assumption
    | apply untouched_bind; [|intros ?] ].

Section UntouchedCalls.
Context `{!bn256.Groups}.
Context {X : Type} (f : State → X).
Hypothesis f_heap : ∀ h σ, f (set_heap h σ) = f σ.

Lemma untouched_G1_ScalarMult e a k : untouched f (G1_ScalarMult e a k).
Proof. unfold G1_ScalarMult. repeat untouched_step. Qed.

Lemma untouched_G1_Add e a b : untouched f (G1_Add e a b).
Proof. unfold G1_Add. repeat untouched_step. Qed.

Lemma untouched_G2_ScalarMult e a k : untouched f (G2_ScalarMult e a k).
Proof. unfold G2_ScalarMult. repeat untouched_step. Qed.

Lemma untouched_G2_Add e a b : untouched f (G2_Add e a b).
Proof. unfold G2_Add. repeat untouched_step. Qed.

Lemma untouched_GT_ScalarMult e a k : untouched f (GT_ScalarMult e a k).
Proof. unfold GT_ScalarMult. repeat untouched_step. Qed.

Lemma untouched_GT_Add e a b : untouched f (GT_Add e a b).
Proof. unfold GT_Add. repeat untouched_step. Qed.

Lemma untouched_GT_Neg e a : untouched f (GT_Neg e a).
Proof. unfold GT_Neg. repeat untouched_step. Qed.

Lemma untouched_Pair a b : untouched f (Pair a b).
Proof. unfold Pair. repeat untouched_step. Qed.

Lemma untouched_deepClone g : untouched f (deepClone g).
Proof. unfold deepClone. repeat untouched_step. Qed.

End UntouchedCalls.

Ltac untouched_call :=
  first
    [ apply untouched_G1_ScalarMult; assumption
    | apply untouched_G1_Add; assumption
    | apply untouched_G2_ScalarMult; assumption
    | apply untouched_G2_Add; assumption
    | apply untouched_GT_ScalarMult; assumption
    | apply untouched_GT_Add; assumption
    | apply untouched_GT_Neg; assumption
    | apply untouched_Pair; assumption
    | apply untouched_deepClone; assumption
    | apply untouched_for_loop; intros ? ?
    | untouched_step ].

(** ** Further properties of the calls *)

Section More.
Context `{!bn256.Groups}.
Implicit Types (σ : State) (h : list cell) (p : ptr).

Lemma pstore_set_heap hh σ : pstore (set_heap hh σ) = pstore σ.
Proof. done. Qed.

Lemma pstore_set_rand r σ : pstore (set_rand r σ) = pstore σ.
Proof. done. Qed.



Lemma untouched_accumulate {X} (f : State → X) params (id : list Z) acc :
  (∀ hh σ, f (set_heap hh σ) = f σ) → untouched f (accumulate params id acc).
Proof.
  intros ?. unfold accumulate. apply untouched_for_loop. intros i [].
  unfold accumulate_body. repeat untouched_call.
Qed.

Lemma untouched_Decrypt {X} (f : State → X) key ct :
  (∀ hh σ, f (set_heap hh σ) = f σ) → untouched f (Decrypt key ct).
Proof. intros ?. unfold Decrypt. repeat untouched_call. Qed.


(** After the read of the source, the key generations write elements
    only. *)
Lemma untouched_KeyGenFromMaster {X} (f : State → X) params master (id : list Z) :
  (∀ hh σ, f (set_heap hh σ) = f σ) → (∀ r σ, f (set_rand r σ) = f σ) →
  untouched f (KeyGenFromMaster params master id).
Proof.
  intros ? ?. unfold KeyGenFromMaster.
  apply untouched_bind; [untouched_call|]. intros Hs.
  destruct (decide _); [untouched_call|].
  apply untouched_bind; [untouched_call|]. intros [r|e]; [|untouched_call].
  repeat first [apply untouched_accumulate; assumption | untouched_call].
Qed.

Lemma untouched_KeyGenFromParent {X} (f : State → X) params parent (id : list Z) :
  (∀ hh σ, f (set_heap hh σ) = f σ) → (∀ r σ, f (set_rand r σ) = f σ) →
  untouched f (KeyGenFromParent params parent id).
Proof.
  intros ? ?. unfold KeyGenFromParent.
  apply untouched_bind; [untouched_call|]. intros Hs.
  destruct (decide _); [untouched_call|].
  destruct (decide _); [untouched_call|].
  apply untouched_bind; [untouched_call|]. intros [r|e]; [|untouched_call].
  repeat first [apply untouched_accumulate; assumption | untouched_call].
Qed.

(** *** The reads of the random source *)

















(** *** Helpers on single calls *)

Lemma wpx_all {A} (m : M A) σ (Q : A → State → Prop) (E : string → State → Prop) :
  (∀ a σ', Q a σ') → (∀ msg σ', E msg σ') → wpx m σ Q E.
Proof. intros HQ HE. unfold wpx. by destruct (m σ). Qed.

(** [bn256.Pair] returns the element it has just created and writes no
    [Params]. *)
Lemma Pair_done a b σ p σ1 :
  Pair a b σ = Done p σ1 → p = Some (length (heap σ)) ∧ pstore σ1 = pstore σ.
Proof.
  intros HPair.
  pose proof (untouched_Pair pstore pstore_set_heap a b σ) as Hps.
  rewrite HPair in Hps. split; [|done].
  unfold Pair, mbind, M_bind in HPair.
  pose proof (untouched_load_G1 id a σ) as E1.
  destruct (load_G1 a σ) as [v1 τ1|]; [|done]. simpl in E1. subst τ1.
  pose proof (untouched_load_G2 id b σ) as E2.
  destruct (load_G2 b σ) as [v2 τ2|]; [|done]. simpl in E2. subst τ2.
  unfold new_cell, store_cell in HPair. simpl in HPair.
  rewrite decide_True in HPair by (rewrite length_app; simpl; lia).
  by injection HPair as <- _.
Qed.

(** [KeyGenFromParent] for the empty path: it gets as far as [id[k-1]]
    with [k = 0] at the latest. *)
Lemma KeyGenFromParent_nil params parent σ :
  wpx (KeyGenFromParent params parent []) σ
    (λ res _, ∃ e, res = (None, Some e)) (λ _ _, True).
Proof.
  unfold KeyGenFromParent.
  apply wpx_bind, wpx_all; [|done]. intros Hs σ1.
  destruct (decide _); [done|]. destruct (decide _); [done|].
  apply wpx_bind, wpx_all; [|done]. intros [t|e] σ2; [|by exists e].
  do 6 (apply wpx_bind, wpx_all; [|done]; intros ? ?).
  apply wpx_bind. unfold wpx, index, len. simpl. done.
Qed.

(** A [KeyGenFromParent] that returns has passed its two checks. *)
Lemma KeyGenFromParent_checks params parent (id : list Z) σ res σ' :
  KeyGenFromParent params parent id σ = Done res σ' →
  ∃ a P, params = Some a ∧ pstore σ !! a = Some P ∧
    len id ≤ len (Params.H P) ∧
    DepthLeft parent = len (Params.H P) - len id + 1.
Proof.
  unfold KeyGenFromParent. intros Hrun.
  destruct params as [a|]; [|done].
  destruct (pstore σ !! a) as [P|] eqn:HP.
  2:{ unfold mbind, M_bind, field, load_Params, mbind, M_bind in Hrun.
      by rewrite HP in Hrun. }
  rewrite (run_field _ _ _ _ _ HP) in Hrun.
  destruct (decide _) as [|Hle]; [done|].
  destruct (decide _) as [|Heq]; [done|].
  exists a, P. split; [done|]. split; [done|]. split; [lia|].
  by destruct (decide (DepthLeft parent = len (Params.H P) - len id + 1)).
Qed.

Lemma Precache_set a P c σ :
  pstore σ !! a = Some P → Params.Pairing P = Some c →
  Precache (Some a) σ = Done () σ.
Proof.
  intros HP Hc. unfold Precache. rewrite (run_field _ _ _ _ _ HP). by rewrite Hc.
Qed.

(** After a [Precache] that returns, the cache slot is not nil. *)
Lemma Precache_done params σ σ' :
  Precache params σ = Done () σ' →
  ∃ a P c, params = Some a ∧ pstore σ' !! a = Some P ∧ Params.Pairing P = Some c.
Proof.
  intros Hrun. unfold Precache in Hrun.
  destruct params as [a|]; [|done].
  destruct (pstore σ !! a) as [P|] eqn:HP.
  2:{ unfold mbind, M_bind, field, load_Params, mbind, M_bind in Hrun.
      by rewrite HP in Hrun. }
  rewrite (run_field _ _ _ _ _ HP) in Hrun.
  destruct (Params.Pairing P) as [c|] eqn:Hc.
  { injection Hrun as <-. by exists a, P, c. }
  rewrite !(run_field _ _ _ _ _ HP) in Hrun.
  unfold mbind, M_bind in Hrun.
  destruct (Pair (Params.G2 P) (Params.G1 P) σ) as [p σ1|] eqn:HPair; [|done].
  destruct (Pair_done _ _ _ _ _ HPair) as [-> Hps].
  unfold update_Params in Hrun. rewrite Hps, HP in Hrun. injection Hrun as <-.
  eexists a, _, _. split; [done|]. split.
  - simpl. apply list_lookup_insert_eq. by eapply lookup_lt_Some.
  - done.
Qed.


(** *** The elements a call returns are new *)

Lemma KeyGenFromMaster_new params master (id : list Z) σ :
  wpx (KeyGenFromMaster params master id) σ
    (λ res _, ∀ key err, res = (Some key, err) → new_key σ key)
    (keeps σ).
Proof.
  pose proof (frame_refl σ) as Hf.
  unfold KeyGenFromMaster.
  apply wpx_bind. eapply any_field; [done|]. intros a P -> HP.
  destruct (decide _) as [Hlt|Hge]; [by apply wpx_panic|].
  apply wpx_bind. eapply any_rand_Int; [done|].
  intros [r|e] σ1 Hf1 Hps1 Hh1.
  2:{ by apply wpx_ret. }
  do 2 astep.
  apply wpx_bind. eapply any_accumulate; [eassumption|eassumption|]. intros.
  do 6 astep.
  apply wpx_bind. eapply any_make; [eassumption|]. intros B0 HB0 HB0n.
  apply wpx_bind.
  eapply wpx_mono;
    [apply (any_for_loop σ (λ B σ', ∀ y, y ∈ B → fresh σ y));
       [|eassumption|]| |done].
  - intros i B τ Hτ HB. do 4 astep.
    eapply any_index_set; [eassumption|]. intros B' _ HB'.
    split; [done|]. intros y Hy.
    destruct (HB' y Hy) as [?| ->]; [by apply HB|done].
  - intros y Hy. rewrite (HB0n y Hy). apply fresh_nil.
  - intros B τ (Hτ & HB). apply wpx_ret.
    intros key err [= <- _]. by split; [|split].
Qed.

Lemma KeyGenFromParent_new params parent (id : list Z) σ :
  wpx (KeyGenFromParent params parent id) σ
    (λ res _, ∀ key err, res = (Some key, err) → new_key σ key)
    (keeps σ).
Proof.
  pose proof (frame_refl σ) as Hf.
  unfold KeyGenFromParent.
  apply wpx_bind. eapply any_field; [done|]. intros a P -> HP.
  destruct (decide _) as [Hlt|Hge]; [by apply wpx_panic|].
  destruct (decide _) as [Hne|Heq]; [by apply wpx_panic|].
  apply wpx_bind. eapply any_rand_Int; [done|].
  intros [t|e] σ1 Hf1 Hps1 Hh1.
  2:{ by apply wpx_ret. }
  do 2 astep.
  apply wpx_bind. eapply any_accumulate; [eassumption|eassumption|]. intros.
  do 12 astep.
  apply wpx_bind. eapply any_make; [eassumption|]. intros B0 HB0 HB0n.
  apply wpx_bind.
  eapply wpx_mono;
    [apply (any_for_loop σ (λ B σ', ∀ y, y ∈ B → fresh σ y));
       [|eassumption|]| |done].
  - intros i B τ Hτ HBf. do 4 astep.
    apply wpx_bind. eapply any_index_set; [eassumption|]. intros B' _ HB'.
    assert (HBf' : ∀ y, y ∈ B' → fresh σ y).
    { intros y Hy. destruct (HB' y Hy) as [?| ->]; [by apply HBf|done]. }
    apply wpx_bind. eapply any_index; [eassumption|]. intros bj Hbj.
    assert (Hbjf : fresh σ bj) by (by apply HBf').
    do 2 astep. by apply wpx_ret.
  - intros y Hy. rewrite (HB0n y Hy). apply fresh_nil.
  - intros B τ (Hτ & HB). apply wpx_ret.
    intros key err [= <- _]. by split; [|split].
Qed.

Lemma Encrypt_new params (id : list Z) message σ :
  wpx (Encrypt params id message) σ
    (λ res _, ∀ ct err, res = (Some ct, err) → new_ciphertext σ ct)
    (keeps σ).
Proof.
  pose proof (frame_refl σ) as Hf.
  unfold Encrypt.
  apply wpx_bind. eapply any_rand_Int; [done|].
  intros [s|e] σ1 Hf1 Hps1 Hh1.
  2:{ by apply wpx_ret. }
  apply wpx_bind. eapply any_field; [done|]. intros a P -> HP.
  apply wpx_bind.
  apply (wpx_mono _ _ (λ _ σ', frame σ σ') _ (keeps σ) _).
  { destruct (Params.Pairing P) as [c|] eqn:Hc; [by apply wpx_ret|].
    do 3 astep.
    eapply any_update_cache; [eassumption| |exact Hc|done].
    congruence. }
  2:{ done. }
  intros [] σ2 Hf2.
  do 9 astep.
  apply wpx_bind. eapply any_accumulate; [eassumption|eassumption|]. intros.
  astep. apply wpx_ret.
  intros ct err [= <- _]. by split; [|split].
Qed.

Lemma Decrypt_new key ct σ :
  wpx (Decrypt key ct) σ (λ p _, p = Some (length (heap σ))) (λ _ _, True).
Proof.
  unfold Decrypt. apply wpx_bind. unfold wpx at 1.
  destruct (Pair _ _ σ) as [p σ1|] eqn:HPair; [|done].
  apply Pair_done in HPair as [-> _].
  do 5 (apply wpx_bind, wpx_all; [|done]; intros ? ?).
  by apply wpx_ret.
Qed.

(** *** Nil operands of [Decrypt] *)

Lemma nil_load_cell p σ (Q : cell → State → Prop) :
  (p ≠ None → ∀ c, Q c σ) → wpx (load_cell p) σ Q nil_dereference.
Proof.
  intros HQ. unfold wpx, load_cell, nil_dereference.
  destruct p as [a|]; [|done]. destruct (heap σ !! a); [|done]. by apply HQ.
Qed.

Lemma nil_load_G1 p σ (Q : bn256.G1 → State → Prop) :
  (p ≠ None → ∀ v, Q v σ) → wpx (load_G1 p) σ Q nil_dereference.
Proof.
  intros HQ. unfold load_G1. apply wpx_bind, nil_load_cell. intros Hp c.
  destruct c; first [by apply wpx_ret, HQ | by apply wpx_panic].
Qed.

Lemma nil_load_G2 p σ (Q : bn256.G2 → State → Prop) :
  (p ≠ None → ∀ v, Q v σ) → wpx (load_G2 p) σ Q nil_dereference.
Proof.
  intros HQ. unfold load_G2. apply wpx_bind, nil_load_cell. intros Hp c.
  destruct c; first [by apply wpx_ret, HQ | by apply wpx_panic].
Qed.

Lemma nil_load_GT p σ (Q : bn256.GT → State → Prop) :
  (p ≠ None → ∀ v, Q v σ) → wpx (load_GT p) σ Q nil_dereference.
Proof.
  intros HQ. unfold load_GT. apply wpx_bind, nil_load_cell. intros Hp c.
  destruct c; first [by apply wpx_ret, HQ | by apply wpx_panic].
Qed.

Lemma nil_store_cell p c σ (Q : unit → State → Prop) :
  (∀ σ', Q () σ') → wpx (store_cell p c) σ Q nil_dereference.
Proof.
  intros HQ. unfold wpx, store_cell, nil_dereference.
  destruct p as [a|]; [|done]. by destruct (decide _).
Qed.

Lemma nil_Pair a b σ (Q : ptr → State → Prop) :
  (a ≠ None → b ≠ None → ∀ p σ', Q p σ') → wpx (Pair a b) σ Q nil_dereference.
Proof.
  intros HQ. unfold Pair.
  apply wpx_bind, nil_load_G1. intros Ha v1.
  apply wpx_bind, nil_load_G2. intros Hb v2.
  apply wpx_bind, wpx_new_cell.
  apply wpx_bind, nil_store_cell. intros σ'.
  by apply wpx_ret, HQ.
Qed.

Lemma Decrypt_nil key ct σ :
  wpx (Decrypt key ct) σ
    (λ _ _, PrivateKey.A0 key ≠ None ∧ PrivateKey.A1 key ≠ None ∧
            Ciphertext.A ct ≠ None ∧ Ciphertext.B ct ≠ None ∧
            Ciphertext.C ct ≠ None)
    nil_dereference.
Proof.
  unfold Decrypt.
  apply wpx_bind, nil_Pair. intros HC HA1 p σ1.
  apply wpx_bind, wpx_new_cell.
  apply wpx_bind, nil_Pair. intros HA0 HB d σ2.
  apply wpx_bind. unfold GT_Neg.
  apply wpx_bind, nil_load_GT. intros _ vd.
  apply wpx_bind, nil_store_cell. intros σ3. apply wpx_ret.
  apply wpx_bind. unfold GT_Add at 1.
  apply wpx_bind, nil_load_GT. intros _ v1.
  apply wpx_bind, nil_load_GT. intros _ v2.
  apply wpx_bind, nil_store_cell. intros σ4. apply wpx_ret.
  apply wpx_bind. unfold GT_Add.
  apply wpx_bind, nil_load_GT. intros HA v3.
  apply wpx_bind, nil_load_GT. intros _ v4.
  apply wpx_bind, nil_store_cell. intros σ5. apply wpx_ret.
  by apply wpx_ret.
Qed.

(** *** The properties *)






(** X6: the value [Decrypt] computes.  For any key and ciphertext whose
    five pointers hold elements (whether or not the key matches the
    ciphertext), [Decrypt] returns an element of value
    [A + (e(C, A1) - e(A0, B))], and the ciphertext's [A] holds the
    value it had. *)
Theorem X6_decrypt_value σ key ct a0 a1 ca cb cc :
  holds (heap σ) (PrivateKey.A0 key) (InG1 a0) →
  holds (heap σ) (PrivateKey.A1 key) (InG2 a1) →
  holds (heap σ) (Ciphertext.A ct) (InGT ca) →
  holds (heap σ) (Ciphertext.B ct) (InG2 cb) →
  holds (heap σ) (Ciphertext.C ct) (InG1 cc) →
  ∃ p σ',
    Decrypt key ct σ = Done p σ' ∧
    holds (heap σ') p
      (InGT (bn256.gt_add ca
               (bn256.gt_add (bn256.pair cc a1) (bn256.gt_neg (bn256.pair a0 cb))))) ∧
    holds (heap σ') (Ciphertext.A ct) (InGT ca).
Proof.
  intros H0 H1 HA HB HC.
  pose proof (Decrypt_spec σ key ct a0 a1 ca cb cc H0 H1 HA HB HC) as Hwp.
  apply wp_done in Hwp as (p & σ' & Hrun & Hpre & _ & _ & Hv).
  exists p, σ'. split; [done|]. split; [done|]. by eapply holds_prefix.
Qed.

(** X7: [KeyGenFromParent] for the empty path returns no key.  Whatever
    the params, the parent and the state, the call for [id = ()] ends in
    a panic or returns an error: past the two checks and the read of the
    source it reaches [id[k-1]] with [k = 0]. *)
Theorem X7_parent_keygen_empty_path params parent σ :
  (∃ msg σ', KeyGenFromParent params parent [] σ = Panics msg σ') ∨
  returns_error (KeyGenFromParent params parent [] σ).
Proof.
  pose proof (KeyGenFromParent_nil params parent σ) as Hw. unfold wpx in Hw.
  destruct (KeyGenFromParent params parent [] σ) as [res σ'|msg σ'].
  - right. destruct Hw as [e ->]. by exists e, σ'.
  - left. by exists msg, σ'.
Qed.

(** X8: a delegation uses up one level.  Whenever [KeyGenFromParent]
    returns a key, on any arguments and state, the error is nil, the
    path is not empty and [DepthLeft()] of the key is [DepthLeft()] of
    the parent less one. *)
Theorem X8_parent_keygen_uses_one_level params parent (id : list Z) σ key err σ' :
  KeyGenFromParent params parent id σ = Done (Some key, err) σ' →
  err = None ∧ 0 < len id ∧ DepthLeft key = DepthLeft parent - 1.
Proof.
  intros Hrun.
  destruct (KeyGenFromParent_checks _ _ _ _ _ _ Hrun) as (a & P & -> & HP & Hle & Hd).
  pose proof (KeyGenFromParent_any (Some a) parent id σ) as Hany.
  unfold wpx in Hany. rewrite Hrun in Hany.
  destruct Hany as (_ & _ & [(key' & [= <- ->] & HB)|(e & [=] & _)]).
  split; [done|]. split.
  - destruct id as [|x id]; [|unfold len; simpl; lia].
    pose proof (KeyGenFromParent_nil (Some a) parent σ) as Hw.
    unfold wpx in Hw. rewrite Hrun in Hw. by destruct Hw as [e [=]].
  - unfold DepthLeft in *. rewrite (HB a P eq_refl HP). lia.
Qed.

(** X9: [Precache] is idempotent.  From any state and for any params
    pointer, two calls of [Precache] in a row end as one call does: with
    the same outcome and the same state. *)
Theorem X9_precache_idempotent params σ :
  (Precache params ≫= λ _, Precache params) σ = Precache params σ.
Proof.
  unfold mbind at 1, M_bind.
  destruct (Precache params σ) as [[] σ'|msg σ'] eqn:Hrun; [|done].
  destruct (Precache_done _ _ _ Hrun) as (a & P & c & -> & HP & Hc).
  by eapply Precache_set.
Qed.

(** X10: nil params.  [MaximumDepth], [Precache], [KeyGenFromMaster] and
    [KeyGenFromParent] on a nil [*Params] panic with Go's nil pointer
    dereference and leave the state as it was.  [Encrypt] reads the
    source first: when the read succeeds it then panics in the same way,
    and when the read fails it returns the error of the read. *)
Theorem X10_nil_params σ master parent (id : list Z) message :
  MaximumDepth None σ = Panics panic_nil σ ∧
  Precache None σ = Panics panic_nil σ ∧
  KeyGenFromMaster None master id σ = Panics panic_nil σ ∧
  KeyGenFromParent None parent id σ = Panics panic_nil σ ∧
  match rand σ with
  | Scalar z :: rest => Encrypt None id message σ = Panics panic_nil (set_rand rest σ)
  | Fail e :: rest => Encrypt None id message σ = Done (None, Some e) (set_rand rest σ)
  | [] => Encrypt None id message σ = Done (None, Some io_EOF) σ
  end.
Proof.
  repeat (split; [done|]).
  unfold Encrypt, mbind, M_bind, rand_Int.
  by destruct (rand σ) as [|[z|e] rest].
Qed.

(** X11: the key generations and [Decrypt] write no [Params].  After any
    call of [KeyGenFromMaster], [KeyGenFromParent] or [Decrypt], on any
    arguments and however the call ends, every [Params] struct is
    exactly as it was, the cache slot included. *)
Theorem X11_params_read_only params master parent key ct (id : list Z) :
  untouched pstore (KeyGenFromMaster params master id) ∧
  untouched pstore (KeyGenFromParent params parent id) ∧
  untouched pstore (Decrypt key ct).
Proof.
  split; [|split].
  - apply untouched_KeyGenFromMaster; [apply pstore_set_heap|apply pstore_set_rand].
  - apply untouched_KeyGenFromParent; [apply pstore_set_heap|apply pstore_set_rand].
  - apply untouched_Decrypt, pstore_set_heap.
Qed.


(** X13: what a call returns is new.  On any arguments and state: no
    pointer of a key that [KeyGenFromMaster] or [KeyGenFromParent]
    returns, and none of a ciphertext that [Encrypt] returns, is the
    address of an element that existed before the call; and the pointer
    [Decrypt] returns is the address of the first element the call
    created. *)
Theorem X13_outputs_are_new σ params master parent key ct message (id : list Z) :
  (∀ k err σ', KeyGenFromMaster params master id σ = Done (Some k, err) σ' →
     new_key σ k) ∧
  (∀ k err σ', KeyGenFromParent params parent id σ = Done (Some k, err) σ' →
     new_key σ k) ∧
  (∀ c err σ', Encrypt params id message σ = Done (Some c, err) σ' →
     new_ciphertext σ c) ∧
  (∀ p σ', Decrypt key ct σ = Done p σ' → p = Some (length (heap σ))).
Proof.
  split; [|split; [|split]].
  - intros k err σ' Hrun. pose proof (KeyGenFromMaster_new params master id σ) as Hw.
    unfold wpx in Hw. rewrite Hrun in Hw. by eapply Hw.
  - intros k err σ' Hrun. pose proof (KeyGenFromParent_new params parent id σ) as Hw.
    unfold wpx in Hw. rewrite Hrun in Hw. by eapply Hw.
  - intros c err σ' Hrun. pose proof (Encrypt_new params id message σ) as Hw.
    unfold wpx in Hw. rewrite Hrun in Hw. by eapply Hw.
  - intros p σ' Hrun. pose proof (Decrypt_new key ct σ) as Hw.
    unfold wpx in Hw. by rewrite Hrun in Hw.
Qed.

(** X14: what [Encrypt] has done when it panics past the maximum depth.
    On well-formed params and message, with [len(id) > l] and a source
    that answers the read: when [Encrypt] ends in the index panic it has
    taken that answer from the source and has set the cache slot to an
    element of value [e(g2, g1)]. *)
Theorem X14_encrypt_overdepth_effects σ params P V message m (id : list Z) z rest :
  params_at σ params P V →
  holds (heap σ) message (InGT m) →
  len (Params.H P) < len id →
  rand σ = Scalar z :: rest →
  ∃ c σ', Encrypt params id message σ = Panics panic_index σ' ∧
    rand σ' = rest ∧
    cache_set σ' params c (bn256.pair (vG2 V) (vG1 V)).
Proof.
  intros Hat Hm Hk Hrand.
  assert (Hk' : (length (Params.H P) < length id)%nat) by (unfold len in Hk; lia).
  cut (wpx (Encrypt params id message) σ (λ _ _, False)
         (λ msg σ', msg = panic_index ∧ rand σ' = rest ∧
            ∃ c, cache_set σ' params c (bn256.pair (vG2 V) (vG1 V)))).
  { unfold wpx. destruct (Encrypt params id message σ) as [|msg σ']; [done|].
    intros (-> & Hr & c & Hc). by exists c, σ'. }
  destruct σ as [h ps r]. simpl in *. subst r.
  pose proof Hat as ((pa & -> & HP) & HG & HG1 & HG2 & HG3 & HH & _). simpl in *.
  pose proof (Forall2_length _ _ _ HH) as Hl.
  unfold Encrypt.
  apply wpx_bind. eapply wpx_rand_Int_ok; [done|]. simpl.
  set (s := z mod bn256.Order).
  apply wpx_bind. unfold set_rand; simpl.
  eapply wpx_field; [done|].
  apply wpx_bind.
  apply (wpx_fill_cache pa P V); [done|].
  intros h' P' Hpre Hfr _ Hpair.
  assert (HP' : <[pa := P']> ps !! pa = Some P').
  { apply list_lookup_insert_eq. by eapply lookup_lt_Some. }
  pose proof Hfr as (EG & EG1 & EG2 & EG3 & EH & _).
  apply wpx_bind, wpx_new_cell. simpl.
  apply wpx_bind. eapply wpx_field; [done|].
  apply wpx_bind. eapply wpx_GT_ScalarMult; simpl.
  { by apply holds_app. }
  { rewrite !length_app. simpl. lia. }
  rewrite insert_snoc.
  apply wpx_bind. eapply wpx_GT_Add; simpl.
  { apply holds_last. }
  { by eapply holds_app, holds_prefix. }
  { rewrite !length_app. simpl. lia. }
  rewrite insert_snoc.
  apply wpx_bind, wpx_new_cell. simpl.
  apply wpx_bind. eapply wpx_field; [done|].
  apply wpx_bind. eapply wpx_G2_ScalarMult; simpl.
  { rewrite EG. by eapply holds_app, holds_app, holds_prefix. }
  { rewrite !length_app. simpl. lia. }
  rewrite insert_snoc.
  apply wpx_bind. eapply wpx_field; [done|].
  apply wpx_bind. eapply wpx_deepClone; simpl.
  { rewrite EG3. by eapply holds_app, holds_app, holds_prefix. }
  apply wpx_bind. unfold set_heap; simpl.
  unfold accumulate, len. rewrite Nat2Z.id.
  replace (length id) with (length (Params.H P) + S (length id - S (length (Params.H P))))%nat
    at 1 by lia.
  apply wpx_for_loop_split.
  eapply (for_loop_accumulate pa P' id _ (vH V) _ _ _ _ _ 0%nat _ []); [done| |lia|lia|].
  { rewrite EH. eapply Forall2_holds_prefix; [|exact HH].
    etrans; [exact Hpre|]. rewrite <- app_assoc. by apply prefix_app_r. }
  simpl for_loop.
  apply wpx_bind. unfold accumulate_body at 1.
  apply wpx_bind, wpx_new_cell. simpl.
  apply wpx_bind. eapply wpx_field; [done|].
  apply wpx_bind. apply wpx_index_oob.
  { rewrite EH. apply lookup_ge_None. lia. }
  split; [done|]. split; [done|].
  destruct Hpair as (c & Hc & Hv).
  exists c, pa, P'. split; [done|]. split; [done|]. split; [done|]. simpl.
  rewrite <- !app_assoc. by apply lookup_app_l_Some.
Qed.

(** X15: [Decrypt] and nil.  From any state, the only panic [Decrypt]
    can end in is Go's nil pointer dereference; and when one of [A0],
    [A1] of the key or [A], [B], [C] of the ciphertext is nil, it does
    end in that panic. *)
Theorem X15_decrypt_nil_component key ct σ :
  (∀ msg σ', Decrypt key ct σ = Panics msg σ' → msg = panic_nil) ∧
  (PrivateKey.A0 key = None ∨ PrivateKey.A1 key = None ∨
   Ciphertext.A ct = None ∨ Ciphertext.B ct = None ∨ Ciphertext.C ct = None →
   ∃ σ', Decrypt key ct σ = Panics panic_nil σ').
Proof.
  pose proof (Decrypt_nil key ct σ) as Hw. unfold wpx, nil_dereference in Hw.
  split.
  - intros msg σ' Hrun. by rewrite Hrun in Hw.
  - intros Hnil. destruct (Decrypt key ct σ) as [p σ'|msg σ'].
    + destruct Hw as (? & ? & ? & ? & ?).
      destruct Hnil as [?|[?|[?|[?|?]]]]; congruence.
    + subst msg. by exists σ'.
Qed.

(** X16: a key with no depth left cannot delegate.  With a parent key
    whose [DepthLeft()] is 0, every call of [KeyGenFromParent], on any
    params, path and state, ends in a panic and leaves the state as it
    was: it returns neither a key nor an error, and reads nothing from
    the source. *)
Theorem X16_leaf_key_cannot_delegate params parent (id : list Z) σ :
  DepthLeft parent = 0 →
  ∃ msg, KeyGenFromParent params parent id σ = Panics msg σ.
Proof.
  intros Hleaf. unfold KeyGenFromParent.
  destruct params as [a|]; [|by eexists].
  destruct (pstore σ !! a) as [P|] eqn:HP.
  2:{ unfold mbind, M_bind, field, load_Params, mbind, M_bind. rewrite HP.
      by eexists. }
  rewrite (run_field _ _ _ _ _ HP).
  destruct (decide _) as [|Hle]; [by eexists|].
  destruct (decide _) as [|Heq]; [by eexists|].
  exfalso. apply Heq. lia.
Qed.

End More.

(** ** The statements on the concrete structure *)

Import ZGroups.

(** The concrete scenario runs: [keyB] has no depth left and decrypts
    to the message [1000], [keyA] does not. *)
Example concrete_scenario_runs :
  ∃ σ', concrete_scenario (Some 0%nat)
          (message_state (Scalar <$> [2; 3; 5; 7; 11; 13; 17; 19; 23]))
        = Done (0, 1000, 72162) σ'.
Proof. eexists. vm_compute. reflexivity. Qed.

(** So it does on the structure of order 2. *)
Example concrete_scenario_runs_order_2 :
  ∃ vA σ', concrete_scenario (H := Z2Groups.groups) (Some 0%nat)
             (Z2Groups.message_state (Scalar <$> [1; 1; 1; 1; 1; 1; 1; 1; 1]))
           = Done (0, true, vA) σ'.
Proof. eexists _, _. vm_compute. reflexivity. Qed.

(** The sample state is well formed. *)
Lemma sample_params_at r :
  params_at (sample_state r) (Some 0%nat) sample_params sample_values.
Proof.
  unfold params_at, holds. simpl.
  split; [by exists 0%nat|].
  split; [by exists 0%nat|].
  split; [by exists 1%nat|].
  split; [by exists 2%nat|].
  split; [by exists 3%nat|].
  split; [|by left].
  repeat constructor; by eexists.
Qed.


(** C2 on the sample params, for the path [(4, 6)]. *)
Lemma C2_witness :
  (len [4; 6] ≤ len (Params.H sample_params)) ∧
  ∃ key_chain key_direct ct p_chain p_direct σ1 σ2 σ3 σ4 σ5 v,
    KeyGenDelegated (Some 0%nat) (Some 6%nat) [4; 6]
        (sample_state (Scalar <$> [2; 3; 5; 7; 11]))
      = Done (Some key_chain, None) σ1 ∧
    KeyGenFromMaster (Some 0%nat) (Some 6%nat) [4; 6] σ1
      = Done (Some key_direct, None) σ2 ∧
    Encrypt (Some 0%nat) [4; 6] (Some 7%nat) σ2 = Done (Some ct, None) σ3 ∧
    Decrypt key_chain ct σ3 = Done p_chain σ4 ∧
    Decrypt key_direct ct σ4 = Done p_direct σ5 ∧
    holds (heap σ5) p_chain (InGT v) ∧
    holds (heap σ5) p_direct (InGT v).
Proof.
  split; [unfold len; simpl; lia|].
  apply (@C2_delegation_equivalence groups
           (sample_state (Scalar <$> [2; 3; 5; 7; 11]))
           (Some 0%nat) sample_params sample_values (Some 6%nat) 15
           (Some 7%nat) 1000 [4; 6] [2; 3; 5] 7 11 []).
  - apply sample_params_at.
  - exists 6%nat. split; reflexivity.
  - exists 7%nat. split; reflexivity.
  - unfold len; simpl; lia.
  - reflexivity.
  - reflexivity.
Defined.

(** C3 as stated fails: with [l = 2] and a path of depth 3, neither
    [KeyGenFromMaster] nor [KeyGenFromParent] hands an error value to its
    caller. *)
Lemma C3_counterexample :
  pstore (sample_state []) !! 0%nat = Some sample_params ∧
  len [1; 2; 3] > len (Params.H sample_params) ∧
  ¬ returns_error (KeyGenFromMaster (Some 0%nat) (Some 6%nat) [1; 2; 3] (sample_state [])) ∧
  ¬ returns_error (KeyGenFromParent (Some 0%nat) sample_root_key [1; 2; 3] (sample_state [])).
Proof.
  split; [reflexivity|]. split; [unfold len; simpl; lia|].
  split; intros (e & σ' & Heq); vm_compute in Heq; discriminate.
Qed.

(** C3 as amended, at the same input: both calls panic. *)
Lemma C3_witness :
  (pstore (sample_state []) !! 0%nat = Some sample_params ∧
   len (Params.H sample_params) < len [1; 2; 3]) ∧
  KeyGenFromMaster (Some 0%nat) (Some 6%nat) [1; 2; 3] (sample_state [])
    = Panics panic_depth_master (sample_state []) ∧
  KeyGenFromParent (Some 0%nat) sample_root_key [1; 2; 3] (sample_state [])
    = Panics panic_depth_parent (sample_state []).
Proof.
  split; [split; [reflexivity|unfold len; simpl; lia]|].
  apply (@C3_depth_exceeded_panics groups (sample_state []) 0%nat sample_params).
  - reflexivity.
  - unfold len; simpl; lia.
Defined.

(** C4 as stated fails.  With [l = 2], a path of depth 3 and a parent
    of [DepthLeft() = 2] (not [l - k + 1 = 0]) the call ends in the panic
    of the depth check, not in a failure for the mismatch; and with a
    path of depth 2 and the same parent (not [l - k + 1 = 1]) it returns
    no error value. *)
Lemma C4_counterexample :
  (DepthLeft sample_root_key ≠ len (Params.H sample_params) - len [1; 2; 3] + 1 ∧
   KeyGenFromParent (Some 0%nat) sample_root_key [1; 2; 3] (sample_state_root [])
     = Panics panic_depth_parent (sample_state_root []) ∧
   ¬ (∃ σ', KeyGenFromParent (Some 0%nat) sample_root_key [1; 2; 3]
              (sample_state_root [])
            = Panics panic_parent_mismatch σ') ∧
   ¬ returns_error (KeyGenFromParent (Some 0%nat) sample_root_key [1; 2; 3]
                      (sample_state_root []))) ∧
  (DepthLeft sample_root_key ≠ len (Params.H sample_params) - len [4; 6] + 1 ∧
   ¬ returns_error (KeyGenFromParent (Some 0%nat) sample_root_key [4; 6]
                      (sample_state_root []))).
Proof.
  split.
  - split; [unfold DepthLeft, len; simpl; lia|].
    split; [reflexivity|].
    split.
    + intros (σ' & Heq). vm_compute in Heq. discriminate.
    + intros (e & σ' & Heq). vm_compute in Heq. discriminate.
  - split; [unfold DepthLeft, len; simpl; lia|].
    intros (e & σ' & Heq). vm_compute in Heq. discriminate.
Qed.

(** C4 as amended: the path of depth 2 with the parent of
    [DepthLeft() = 2] ends in the panic of the parent check. *)
Lemma C4_witness :
  (pstore (sample_state_root []) !! 0%nat = Some sample_params ∧
   len [4; 6] ≤ len (Params.H sample_params) ∧
   DepthLeft sample_root_key ≠ len (Params.H sample_params) - len [4; 6] + 1) ∧
  KeyGenFromParent (Some 0%nat) sample_root_key [4; 6] (sample_state_root [])
    = Panics panic_parent_mismatch (sample_state_root []).
Proof.
  split; [split; [reflexivity|split; unfold DepthLeft, len; simpl; lia]|].
  apply (@C4_parent_mismatch_panics groups (sample_state_root []) 0%nat sample_params).
  - reflexivity.
  - unfold len; simpl; lia.
  - unfold DepthLeft, len; simpl; lia.
Defined.

(** C5 for the key of the path [(4)] on the sample params. *)
Lemma C5_witness :
  pstore (sample_state [Scalar 2]) !! 0%nat = Some sample_params ∧
  ∃ key σ',
    KeyGenFromMaster (Some 0%nat) (Some 6%nat) [4] (sample_state [Scalar 2])
      = Done (Some key, None) σ' ∧
    len (PrivateKey.B key) = len (Params.H sample_params) - len [4] ∧
    DepthLeft key = len (PrivateKey.B key).
Proof.
  split; [reflexivity|].
  eexists _, _. split; [vm_compute; reflexivity|].
  eapply (@C5_delegation_vector_length groups (sample_state [Scalar 2]) 0%nat
            sample_params (Some 6%nat) sample_root_key [4]).
  - reflexivity.
  - left. vm_compute. reflexivity.
Defined.





(** ** The further properties on the concrete structure *)








(** X6: the root key on a ciphertext that was not made for it. *)
Lemma X6_witness :
  ∃ p σ',
    Decrypt sample_root_key (Ciphertext.mk (Some 7%nat) (Some 0%nat) (Some 2%nat))
        (sample_state_root [])
      = Done p σ' ∧
    holds (heap σ') p (@InGT groups (1000 + (5 * 4 + - (29 * 2)))) ∧
    holds (heap σ') (Some 7%nat) (@InGT groups 1000).
Proof.
  apply (@X6_decrypt_value groups (sample_state_root []) sample_root_key
           (Ciphertext.mk (Some 7%nat) (Some 0%nat) (Some 2%nat)) 29 4 1000 2 5).
  - exists 8%nat. split; reflexivity.
  - exists 9%nat. split; reflexivity.
  - exists 7%nat. split; reflexivity.
  - exists 0%nat. split; reflexivity.
  - exists 2%nat. split; reflexivity.
Defined.

(** X8: from the root key to the key of the path [(4)]. *)
Lemma X8_witness :
  ∃ key σ',
    KeyGenFromParent (Some 0%nat) sample_root_key [4] (sample_state_root [Scalar 3])
      = Done (Some key, None) σ' ∧
    (@None error = None ∧ 0 < len [4] ∧
     DepthLeft key = DepthLeft sample_root_key - 1).
Proof.
  eexists _, _. split; [vm_compute; reflexivity|].
  eapply (@X8_parent_keygen_uses_one_level groups (Some 0%nat) sample_root_key [4]
            (sample_state_root [Scalar 3])).
  vm_compute. reflexivity.
Defined.

(** X13: the key of the path [(4)] on the sample params. *)
Lemma X13_witness :
  ∃ key σ',
    KeyGenFromMaster (Some 0%nat) (Some 6%nat) [4] (sample_state [Scalar 2])
      = Done (Some key, None) σ' ∧
    new_key (sample_state [Scalar 2]) key.
Proof.
  eexists _, _. split; [vm_compute; reflexivity|].
  destruct (@X13_outputs_are_new groups (sample_state [Scalar 2]) (Some 0%nat)
              (Some 6%nat) sample_root_key sample_root_key
              (Ciphertext.mk None None None) None [4])
    as (Hmaster & _).
  eapply Hmaster. vm_compute. reflexivity.
Defined.

(** X14: [Encrypt] for a path of depth 3 on the sample params. *)
Lemma X14_witness :
  (len (Params.H sample_params) < len [1; 2; 3]) ∧
  ∃ c σ',
    Encrypt (Some 0%nat) [1; 2; 3] (Some 7%nat) (sample_state [Scalar 17])
      = Panics panic_index σ' ∧
    rand σ' = [] ∧
    cache_set σ' (Some 0%nat) c (5 * 6).
Proof.
  split; [unfold len; simpl; lia|].
  apply (@X14_encrypt_overdepth_effects groups (sample_state [Scalar 17]) (Some 0%nat)
           sample_params sample_values (Some 7%nat) 1000 [1; 2; 3] 17 []).
  - apply sample_params_at.
  - exists 7%nat. split; reflexivity.
  - unfold len; simpl; lia.
  - reflexivity.
Defined.

(** X15: [Decrypt] with the zero value of [PrivateKey]. *)
Lemma X15_witness :
  PrivateKey.A0 (PrivateKey.mk None None []) = None ∧
  ∃ σ', Decrypt (PrivateKey.mk None None [])
          (Ciphertext.mk (Some 7%nat) (Some 0%nat) (Some 2%nat)) (sample_state [])
        = Panics panic_nil σ'.
Proof.
  split; [reflexivity|].
  destruct (@X15_decrypt_nil_component groups (PrivateKey.mk None None [])
              (Ciphertext.mk (Some 7%nat) (Some 0%nat) (Some 2%nat)) (sample_state []))
    as [_ Hnil].
  apply Hnil. left. reflexivity.
Defined.

(** X16: a parent key with an empty [B] on the sample params. *)
Lemma X16_witness :
  DepthLeft (PrivateKey.mk (Some 8%nat) (Some 9%nat) []) = 0 ∧
  ∃ msg, KeyGenFromParent (Some 0%nat) (PrivateKey.mk (Some 8%nat) (Some 9%nat) [])
           [4; 6] (sample_state_root [Scalar 3])
         = Panics msg (sample_state_root [Scalar 3]).
Proof.
  split; [reflexivity|].
  apply (@X16_leaf_key_cannot_delegate groups (Some 0%nat)
           (PrivateKey.mk (Some 8%nat) (Some 9%nat) []) [4; 6]
           (sample_state_root [Scalar 3])).
  reflexivity.
Defined.
